(** * FIT decoder and dive extraction: a shallow embedding

    The development follows the module [fit-parser.js] ([parseFIT] with
    its inner functions [readDataMessage] and [readFieldValue], and
    [garminTimestampToDate]) and the module [dive-data.js]
    ([extractDiveFromBuffer]), whose text is the last part of
    [js/charts.js].

    JavaScript data is modelled as the code has it:
    - a [Number] is an IEEE-754 binary64 value, here a primitive [float];
      integers read from the buffer stay in [Z] until they are stored in
      a message (all of them are below 2^32 in absolute value, hence
      exact as doubles);
    - [undefined] and [null] are distinct values ([VUndefined], [VNull]);
      both count as "no value" ([x == null]);
    - the [ArrayBuffer] is a [list byte]; an indexed read of the
      [Uint8Array] past the end gives [undefined], a [DataView] getter
      past the end throws a [RangeError];
    - objects used as maps are [gmap]s; the array of samples updated in
      place is a list with stdpp's lookup and insert. *)

From Stdlib Require Import ZArith Floats Uint63 String Ascii Strings.Byte Lia Bool.
From stdpp Require Import base option list gmap.

Local Open Scope Z_scope.

(** ** Errors and results *)

Inductive error :=
  | FormatError      (* new Error('Not a valid FIT file') *)
  | RangeError       (* DataView getter outside the buffer *)
  | NoRecordsError   (* new Error('No dive records found in FIT file') *)
  | TypeError.       (* property read on undefined *)

Inductive result (A : Type) :=
  | Ok (a : A)
  | Throw (e : error).
Arguments Ok {A} a.
Arguments Throw {A} e.

#[export] Instance result_ret : MRet result := fun _ a => Ok a.
#[export] Instance result_bind : MBind result := fun _ _ k r =>
  match r with
  | Ok a => k a
  | Throw e => Throw e
  end.

(** ** JavaScript numbers and values *)

(** The double that an integer of the buffer denotes. *)
Definition num_of_Z (z : Z) : float :=
  match z with
  | Z0 => 0%float
  | Zpos _ => PrimFloat.of_uint63 (Uint63.of_Z z)
  | Zneg p => PrimFloat.opp (PrimFloat.of_uint63 (Uint63.of_Z (Zpos p)))
  end.

Inductive jsval :=
  | VUndefined
  | VNull
  | VNum (x : float)
  | VStr (s : string).

(** [v == null] *)
Definition nullish (v : jsval) : bool :=
  match v with
  | VUndefined | VNull => true
  | _ => false
  end.

(** Truthiness of a number: everything but [+0], [-0] and [NaN]. *)
Definition num_truthy (x : float) : bool :=
  negb (PrimFloat.is_zero x || PrimFloat.is_nan x).

(** ToBoolean *)
Definition truthy (v : jsval) : bool :=
  match v with
  | VUndefined | VNull => false
  | VNum x => num_truthy x
  | VStr s => negb (String.eqb s EmptyString)
  end.

(** ** The buffer: [Uint8Array] and [DataView] reads *)

Definition u8 (b : byte) : Z := Z.of_N (Byte.to_N b).

(** A cursor value: the variable [offset] holds a non-negative integer,
    or [NaN] once a size that is [undefined] has been added to it. *)
Inductive jsoff :=
  | Off (n : Z)
  | OffNaN.

(** [o + k] where [k] may be [undefined]. *)
Definition off_add (o : jsoff) (k : option Z) : jsoff :=
  match o, k with
  | Off n, Some s => Off (n + s)
  | _, _ => OffNaN
  end.

(** [bytes[i]] for an integer [i]: [None] is [undefined]. [rawAt] gives
    the element as stored, [byteAt] its numeric value. *)
Definition rawAt (bytes : list byte) (i : Z) : option byte :=
  if i <? 0 then None else bytes !! Z.to_nat i.

Definition byteAt (bytes : list byte) (i : Z) : option Z := u8 <$> rawAt bytes i.

(** [bytes[offset]]; the property [NaN] does not exist. *)
Definition elemAt (bytes : list byte) (o : jsoff) : option Z :=
  match o with
  | Off n => byteAt bytes n
  | OffNaN => None
  end.

(** ToIndex of a [DataView] getter: [NaN] becomes 0. *)
Definition toIndex (o : jsoff) : Z :=
  match o with
  | Off n => n
  | OffNaN => 0
  end.

(** The [w] bytes at index [i], or a [RangeError]. *)
Definition view (bytes : list byte) (i : Z) (w : nat) : result (list Z) :=
  if (0 <=? i) && (i + Z.of_nat w <=? Z.of_nat (length bytes))
  then Ok (u8 <$> take w (drop (Z.to_nat i) bytes))
  else Throw RangeError.

(** Big-endian value of a byte sequence. *)
Definition be_value (bs : list Z) : Z :=
  fold_left (fun acc b => Z.lor (Z.shiftl acc 8) b) bs 0.

Definition getUint (w : nat) (bytes : list byte) (o : jsoff) (le : bool) : result Z :=
  bs ← view bytes (toIndex o) w;
  Ok (be_value (if le then reverse bs else bs)).

(** Two's complement reading of a [w]-byte unsigned value. *)
Definition to_signed (w : nat) (v : Z) : Z :=
  if v <? 2 ^ (8 * Z.of_nat w - 1) then v else v - 2 ^ (8 * Z.of_nat w).

Definition getInt (w : nat) (bytes : list byte) (o : jsoff) (le : bool) : result Z :=
  v ← getUint w bytes o le;
  Ok (to_signed w v).

Definition getInt8 bytes o := getInt 1 bytes o false.
Definition getInt16 := getInt 2.
Definition getUint16 := getUint 2.
Definition getInt32 := getInt 4.
Definition getUint32 := getUint 4.

(** The double denoted by an IEEE-754 bit pattern with [ew] exponent
    bits and [mw] fraction bits. *)
Definition float_of_bits (ew mw : Z) (bits : Z) : float :=
  let m := Z.land bits (Z.ones mw) in
  let e := Z.land (Z.shiftr bits mw) (Z.ones ew) in
  let bias := 2 ^ (ew - 1) - 1 in
  let mag :=
    if e =? Z.ones ew then (if m =? 0 then infinity else nan)
    else if e =? 0 then Z.ldexp (num_of_Z m) (1 - bias - mw)
    else Z.ldexp (num_of_Z (m + 2 ^ mw)) (e - bias - mw) in
  if Z.testbit bits (ew + mw) then PrimFloat.opp mag else mag.

Definition getFloat32 (bytes : list byte) (o : jsoff) (le : bool) : result float :=
  v ← getUint 4 bytes o le; Ok (float_of_bits 8 23 v).

Definition getFloat64 (bytes : list byte) (o : jsoff) (le : bool) : result float :=
  v ← getUint 8 bytes o le; Ok (float_of_bits 11 52 v).

(** [String.fromCharCode(c)]: [undefined] gives the character 0. Codes
    128 to 255 are the Latin-1 characters of the same number. *)
Definition fromCharCode (c : option Z) : ascii :=
  ascii_of_N (Z.to_N (default 0 c)).

(** ToInt32 of a byte read, as taken by the operator [&]. *)
Definition toInt32 (c : option Z) : Z := default 0 c.

Definition bytes_of (l : list Z) : list byte :=
  (fun z => default x00 (Byte.of_N (Z.to_N z))) <$> l.

(** ** Message definitions and decoded messages *)

(** A field descriptor. Each component is an element of the byte array,
    or [undefined] when the definition record runs past the end. *)
Record FieldDef := mkFieldDef {
  fieldDefNum : option byte;
  size : option byte;
  baseType : option byte
}.

Record DevFieldDef := mkDevFieldDef {
  fNum : option byte;
  devSize : option byte;   (* property [size] of a developer field *)
  devIdx : option byte
}.

(** The number held by a descriptor component. *)
Definition num (b : option byte) : option Z := u8 <$> b.

Record MesgDef := mkMesgDef {
  globalMesgNum : Z;
  fields : list FieldDef;
  devFields : list DevFieldDef;
  littleEndian : bool
}.

(** A decoded message [{ _mesgNum, [fieldDefNum]: value, ... }]. The
    property key of a field is its number, or the key ["undefined"]
    ([None]) for a descriptor read past the end of the buffer. *)
Record RawMessage := mkRawMessage {
  _mesgNum : Z;
  props : gmap (option Z) jsval
}.

(** [m[k]] for a numeric key: a missing property reads [undefined]. *)
Definition prop (ps : gmap (option Z) jsval) (k : Z) : jsval :=
  default VUndefined (ps !! Some k).

(** ** [readFieldValue] *)

(** Number of iterations of [for (let i = 0; i < n; i++)] when [n] is a
    byte or [undefined] (the test [0 < undefined] is false). *)
Definition loopCount (n : option Z) : nat := Z.to_nat (default 0 n).

(** The loop of [case 7]: characters up to [size], stopping at NUL. *)
Fixpoint readString (bytes : list byte) (offset : jsoff) (n : nat) (i : Z) : string :=
  match n with
  | O => EmptyString
  | S n' =>
      match elemAt bytes (off_add offset (Some i)) with
      | Some 0 => EmptyString
      | c => String (fromCharCode c) (readString bytes offset n' (i + 1))
      end
  end.

(** The sentinel test [if (val === s) val = null]. *)
Definition orNull (sentinel : Z) (v : Z) : jsval :=
  if v =? sentinel then VNull else VNum (num_of_Z v).

Definition readFieldValue (bytes : list byte) (field : FieldDef) (le : bool)
    (offset : jsoff) : result (jsval * jsoff) :=
  let start := offset in
  let bt := Z.land (toInt32 (num (baseType field))) 0x1F in
  val ← match bt with
        | 0 | 2 | 10 | 13 =>
            Ok (match elemAt bytes offset with
                | None => VUndefined
                | Some v => orNull 0xFF v
                end)
        | 1 => v ← getInt8 bytes offset; Ok (orNull 0x7F v)
        | 3 => v ← getInt16 bytes offset le; Ok (orNull 0x7FFF v)
        | 4 | 11 => v ← getUint16 bytes offset le; Ok (orNull 0xFFFF v)
        | 5 => v ← getInt32 bytes offset le; Ok (orNull 0x7FFFFFFF v)
        | 6 | 12 => v ← getUint32 bytes offset le; Ok (orNull 0xFFFFFFFF v)
        | 7 => Ok (VStr (readString bytes offset (loopCount (num (size field))) 0))
        | 8 => x ← getFloat32 bytes offset le; Ok (VNum x)
        | 9 => x ← getFloat64 bytes offset le; Ok (VNum x)
        | _ => Ok VNull
        end;
  Ok (val, off_add start (num (size field))).

(** ** [readDataMessage] *)

Fixpoint readFields (bytes : list byte) (fs : list FieldDef) (le : bool)
    (obj : gmap (option Z) jsval) (offset : jsoff)
    : result (gmap (option Z) jsval * jsoff) :=
  match fs with
  | [] => Ok (obj, offset)
  | field :: fs' =>
      '(val, offset') ← readFieldValue bytes field le offset;
      readFields bytes fs' le (<[num (fieldDefNum field) := val]> obj) offset'
  end.

(** [for (const df of def.devFields) offset += df.size] *)
Definition skipDevFields (dfs : list DevFieldDef) (offset : jsoff) : jsoff :=
  fold_left (fun o df => off_add o (num (devSize df))) dfs offset.

Definition readDataMessage (bytes : list byte) (def : MesgDef) (offset : jsoff)
    : result (RawMessage * jsoff) :=
  '(obj, offset') ← readFields bytes (fields def) (littleEndian def) ∅ offset;
  Ok (mkRawMessage (globalMesgNum def) obj, skipDevFields (devFields def) offset').

(** ** The record-stream loop of [parseFIT] *)

Record State := mkState {
  offset : jsoff;
  definitions : gmap Z MesgDef;
  messages : list RawMessage
}.

(** The [numFields] descriptors read by the [for] loop of a definition
    record, and the cursor after them. *)
Fixpoint readFieldDefs (bytes : list byte) (n : nat) (off : Z) : list FieldDef * Z :=
  match n with
  | O => ([], off)
  | S n' =>
      let fd := mkFieldDef (rawAt bytes off) (rawAt bytes (off + 1)) (rawAt bytes (off + 2)) in
      let '(rest, off') := readFieldDefs bytes n' (off + 3) in
      (fd :: rest, off')
  end.

Fixpoint readDevFieldDefs (bytes : list byte) (n : nat) (off : Z) : list DevFieldDef * Z :=
  match n with
  | O => ([], off)
  | S n' =>
      let df := mkDevFieldDef (rawAt bytes off) (rawAt bytes (off + 1)) (rawAt bytes (off + 2)) in
      let '(rest, off') := readDevFieldDefs bytes n' (off + 3) in
      (df :: rest, off')
  end.

(** The branch [if (isDefinition)]; [off] is the cursor after the record
    header byte. *)
Definition readDefinition (bytes : list byte) (hasDeveloperData : bool) (off : Z)
    : result (MesgDef * Z) :=
  let off := off + 1 in                               (* reserved *)
  let arch := byteAt bytes off in
  let off := off + 1 in
  let littleEndian := bool_decide (arch = Some 0) in
  globalMesgNum ← getUint16 bytes (Off off) littleEndian;
  let off := off + 2 in
  let numFields := byteAt bytes off in
  let off := off + 1 in
  let '(fields, off) := readFieldDefs bytes (loopCount numFields) off in
  let '(devFields, off) :=
    if hasDeveloperData then
      let numDevFields := byteAt bytes off in
      readDevFieldDefs bytes (loopCount numDevFields) (off + 1)
    else ([], off) in
  Ok (mkMesgDef globalMesgNum fields devFields littleEndian, off).

(** What one iteration of the [while] loop does. *)
Inductive outcome :=
  | Next (st : State)        (* falls through or [continue] *)
  | Break                    (* [break] *)
  | Raise (e : error).

(** One iteration, entered with [offset = Off off]. *)
Definition step (bytes : list byte) (off : Z) (st : State) : outcome :=
  let recordHeader := toInt32 (byteAt bytes off) in
  let off := off + 1 in
  if negb (Z.land recordHeader 0x80 =? 0) then
    (* compressed timestamp header *)
    let localMesgType := Z.land (Z.shiftr recordHeader 5) 0x3 in
    match definitions st !! localMesgType with
    | Some def =>
        match readDataMessage bytes def (Off off) with
        | Ok (msg, off') => Next (mkState off' (definitions st) (messages st ++ [msg]))
        | Throw e => Raise e
        end
    | None => Next (mkState (Off off) (definitions st) (messages st))
    end
  else
    let isDefinition := negb (Z.land recordHeader 0x40 =? 0) in
    let localMesgType := Z.land recordHeader 0x0F in
    let hasDeveloperData := negb (Z.land recordHeader 0x20 =? 0) in
    if isDefinition then
      match readDefinition bytes hasDeveloperData off with
      | Ok (def, off') =>
          Next (mkState (Off off') (<[localMesgType := def]> (definitions st)) (messages st))
      | Throw e => Raise e
      end
    else
      match definitions st !! localMesgType with
      | None => Break
      | Some def =>
          match readDataMessage bytes def (Off off) with
          | Ok (msg, off') => Next (mkState off' (definitions st) (messages st ++ [msg]))
          | Throw e => Raise e
          end
      end.

(** [while (offset < endOfData) { ... }] followed by [return messages].
    The comparison is false once [offset] is [NaN]. [None] means that
    the iteration budget ran out; [budgetFor] below never lets it. *)
Fixpoint scan (bytes : list byte) (endOfData : Z) (budget : nat) (st : State)
    : option (result (list RawMessage)) :=
  match offset st with
  | OffNaN => Some (Ok (messages st))
  | Off off =>
      if off <? endOfData then
        match budget with
        | O => None
        | S budget' =>
            match step bytes off st with
            | Next st' => scan bytes endOfData budget' st'
            | Break => Some (Ok (messages st))
            | Raise e => Some (Throw e)
            end
        end
      else Some (Ok (messages st))
  end.

(** Every iteration moves the cursor forward by at least the header
    byte, so [endOfData - offset] iterations are enough. *)
Definition budgetFor (endOfData : Z) (o : jsoff) : nat :=
  match o with
  | Off off => Z.to_nat (endOfData - off)
  | OffNaN => O
  end.

Definition FIT_TAG : string := ".FIT".

Definition dataType (bytes : list byte) : string :=
  String (fromCharCode (byteAt bytes 8))
    (String (fromCharCode (byteAt bytes 9))
      (String (fromCharCode (byteAt bytes 10))
        (String (fromCharCode (byteAt bytes 11)) EmptyString))).

Definition initState (headerSize : Z) : State := mkState (Off headerSize) ∅ [].

Definition parseFIT (buffer : list byte) : option (result (list RawMessage)) :=
  let bytes := buffer in
  let headerSize := byteAt bytes 0 in
  let protocolVersion := byteAt bytes 1 in
  match getUint16 bytes (Off 2) true with
  | Throw e => Some (Throw e)
  | Ok profileVersion =>
      match getUint32 bytes (Off 4) true with
      | Throw e => Some (Throw e)
      | Ok dataSize =>
          if negb (String.eqb (dataType bytes) FIT_TAG) then Some (Throw FormatError)
          else
            (* byte 0 is there: the two reads above succeeded *)
            let headerSize := default 0 headerSize in
            let endOfData := headerSize + dataSize in
            scan bytes endOfData (budgetFor endOfData (Off headerSize)) (initState headerSize)
      end
  end.

(** ** [garminTimestampToDate] and the extraction of a dive *)

Definition MESG_SESSION : Z := 18.
Definition MESG_RECORD : Z := 20.
Definition MESG_DIVE_SUMMARY : Z := 268.

Definition F_TIMESTAMP : Z := 253.
Definition F_DEPTH : Z := 92.
Definition F_ASCENT_RATE : Z := 127.
Definition F_TEMPERATURE : Z := 13.
Definition F_NDL : Z := 96.
Definition F_CNS : Z := 93.

Definition SF_START_TIME : Z := 2.
Definition SF_TOTAL_ELAPSED_TIME : Z := 7.

Definition DS_AVG_DEPTH : Z := 2.
Definition DS_MAX_DEPTH : Z := 3.

(** [new Date('1989-12-31T00:00:00Z').getTime() / 1000] *)
Definition GARMIN_EPOCH : float := 631065600%float.

(** A [Date] object, kept as the millisecond argument it was
    constructed from. *)
Inductive jsdate :=
  | NewDate (ms : float).

Record Sample := mkSample {
  elapsed : float;
  depth : option float;          (* a number or [null] *)
  ascentRate : option float;     (* a number or [null] *)
  temperature : jsval;
  ndl : jsval;
  cns : jsval
}.

Record Dive := mkDive {
  startDate : option jsdate;     (* a [Date] or [null] *)
  totalTime : float;
  maxDepth : float;
  avgDepth : option float;
  minTemp : option float;
  maxTemp : option float;
  samples : list Sample
}.

(** [Math.max(...xs)] and [Math.min(...xs)] on numbers. *)
Definition isPosZero (x : float) : bool := PrimFloat.is_zero x && negb (PrimFloat.get_sign x).
Definition isNegZero (x : float) : bool := PrimFloat.is_zero x && PrimFloat.get_sign x.

Definition mathMax (xs : list float) : float :=
  if existsb PrimFloat.is_nan xs then nan
  else fold_left (fun highest x =>
         if isPosZero x && isNegZero highest then x
         else if PrimFloat.ltb highest x then x else highest) xs neg_infinity.

Definition mathMin (xs : list float) : float :=
  if existsb PrimFloat.is_nan xs then nan
  else fold_left (fun lowest x =>
         if isNegZero x && isPosZero lowest then x
         else if PrimFloat.ltb x lowest then x else lowest) xs infinity.

(** [samples[i].ascentRate = r] *)
Definition setAscentRate (s : Sample) (r : float) : Sample :=
  mkSample (elapsed s) (depth s) (Some r) (temperature s) (ndl s) (cns s).

(** The body of the backfill loop at index [i], on the array updated in
    place. *)
Definition backfillAt (i : nat) (samples : list Sample) : list Sample :=
  match samples !! i, samples !! (i - 1)%nat with
  | Some si, Some sp =>
      match ascentRate si, depth si, depth sp with
      | None, Some d, Some dp =>
          let dt := PrimFloat.sub (elapsed si) (elapsed sp) in
          if PrimFloat.ltb 0 dt
          then <[i := setAscentRate si (PrimFloat.div (PrimFloat.sub dp d) dt)]> samples
          else samples
      | _, _, _ => samples
      end
  | _, _ => samples
  end.

(** [for (let i = ...; i < samples.length; i++) { ... }], at most [n]
    iterations. *)
Fixpoint backfillFrom (n : nat) (i : nat) (samples : list Sample) : list Sample :=
  match n with
  | O => samples
  | S n' =>
      if (i <? length samples)%nat
      then backfillFrom n' (S i) (backfillAt i samples)
      else samples
  end.

(** The loop starts at 1; it runs fewer than [samples.length] times. *)
Definition backfill (samples : list Sample) : list Sample :=
  backfillFrom (length samples) 1 samples.

Section Extraction.

(** StringToNumber of the language, applied when a text field meets an
    arithmetic operator. *)
Variable StringToNumber : string → float.

(** ToNumber *)
Definition toNumber (v : jsval) : float :=
  match v with
  | VUndefined => nan
  | VNull => 0%float
  | VNum x => x
  | VStr s => StringToNumber s
  end.

(** [a - b] *)
Definition jsSub (a b : jsval) : float := PrimFloat.sub (toNumber a) (toNumber b).

(** [v / 1000] *)
Definition scale1000 (v : jsval) : float := PrimFloat.div (toNumber v) 1000.

(** [ts + GARMIN_EPOCH]: a sum of numbers, or a concatenation when [ts]
    is text; only reached with a truthy [ts]. *)
Definition plusEpoch (ts : jsval) : float :=
  match ts with
  | VStr s => StringToNumber (s ++ "631065600")
  | _ => PrimFloat.add (toNumber ts) GARMIN_EPOCH
  end.

Definition garminTimestampToDate (ts : jsval) : option jsdate :=
  if negb (truthy ts) then None
  else Some (NewDate (PrimFloat.mul (plusEpoch ts) 1000)).

(** The callback of [records.map]. *)
Definition buildSample (firstTs : jsval) (r : RawMessage) : Sample :=
  let ts := prop (props r) F_TIMESTAMP in
  let elapsed := jsSub ts firstTs in
  let depth := if negb (nullish (prop (props r) F_DEPTH))
               then Some (scale1000 (prop (props r) F_DEPTH)) else None in
  let ascentRate := if negb (nullish (prop (props r) F_ASCENT_RATE))
                    then Some (scale1000 (prop (props r) F_ASCENT_RATE)) else None in
  let temperature := prop (props r) F_TEMPERATURE in
  let ndl := prop (props r) F_NDL in
  let cns := prop (props r) F_CNS in
  mkSample elapsed depth ascentRate temperature ndl cns.

(** [s.depth || 0] *)
Definition depthOrZero (s : Sample) : float :=
  match depth s with
  | Some d => if num_truthy d then d else 0%float
  | None => 0%float
  end.

(** [x || y] *)
Definition jsOr (x y : jsval) : jsval := if truthy x then x else y.

(** [sessions[0] || {}]: the properties of the first message, if any. *)
Definition firstOrEmpty (ms : list RawMessage) : gmap (option Z) jsval :=
  match ms with
  | m :: _ => props m
  | [] => ∅
  end.

(** The part of [extractDiveFromBuffer] after the call of [parseFIT]. *)
Definition extractDive (messages : list RawMessage) : result Dive :=
  let records := filter (fun m => _mesgNum m = MESG_RECORD) messages in
  let sessions := filter (fun m => _mesgNum m = MESG_SESSION) messages in
  let diveSummaries := filter (fun m => _mesgNum m = MESG_DIVE_SUMMARY) messages in
  match records with
  | [] => Throw NoRecordsError
  | first :: _ =>
      let firstTs := prop (props first) F_TIMESTAMP in
      let samples := backfill (buildSample firstTs <$> records) in
      let session := firstOrEmpty sessions in
      let summary := firstOrEmpty diveSummaries in
      let startDate := garminTimestampToDate (jsOr (prop session SF_START_TIME) firstTs) in
      totalTime ←
        (if truthy (prop session SF_TOTAL_ELAPSED_TIME)
         then Ok (scale1000 (prop session SF_TOTAL_ELAPSED_TIME))
         else match last samples with
              | Some s => Ok (elapsed s)
              | None => Throw TypeError
              end);
      let maxDepth :=
        if truthy (prop summary DS_MAX_DEPTH)
        then scale1000 (prop summary DS_MAX_DEPTH)
        else mathMax (depthOrZero <$> samples) in
      let avgDepth :=
        if truthy (prop summary DS_AVG_DEPTH)
        then Some (scale1000 (prop summary DS_AVG_DEPTH))
        else None in
      let temps := List.filter (fun t => negb (nullish t)) (temperature <$> samples) in
      let minTemp := if (0 <? length temps)%nat then Some (mathMin (toNumber <$> temps)) else None in
      let maxTemp := if (0 <? length temps)%nat then Some (mathMax (toNumber <$> temps)) else None in
      Ok (mkDive startDate totalTime maxDepth avgDepth minTemp maxTemp samples)
  end.

Definition extractDiveFromBuffer (arrayBuffer : list byte) : option (result Dive) :=
  match parseFIT arrayBuffer with
  | None => None
  | Some (Throw e) => Some (Throw e)
  | Some (Ok messages) => Some (extractDive messages)
  end.

End Extraction.

(** ** Chart colours ([js/charts.js], the first module of the file) *)

(** [speedColor(mpm)], for an argument that is a number or [null]. *)
Definition speedColor (mpm : option float) : string :=
  match mpm with
  | None => "#8899aa"
  | Some x =>
      let abs := PrimFloat.abs x in
      if PrimFloat.ltb 12 abs then "#ef476f"
      else if PrimFloat.ltb 9 abs then "#ff6b35"
      else if PrimFloat.ltb 6 abs then "#ffd166"
      else "#06d6a0"
  end.

(** The arrays that [renderCharts] derives from the samples. *)
Definition allAscentRates (samples : list Sample) : list (option float) :=
  (fun s => ascentRate s) <$> samples.          (* s.ascentRate ?? null *)

Definition allAscentMpm (samples : list Sample) : list (option float) :=
  (fun r => match r with
            | Some r => Some (PrimFloat.mul r 60)
            | None => None
            end) <$> allAscentRates samples.     (* r != null ? r * 60 : null *)

Definition allAscentColors (samples : list Sample) : list string :=
  speedColor <$> allAscentMpm samples.

(** [array[i]] for an integer index: [None] is [undefined]. *)
Definition elemZ {A} (l : list A) (i : Z) : option A :=
  if i <? 0 then None else l !! Z.to_nat i.

(** The callback [borderColor] of [buildSegmentColors], with the
    module variables [zoomStart] and [allAscentRates] it reads. *)
Definition segmentBorderColor (zoomStart : Z) (rates : list (option float))
    (p0DataIndex : Z) : string :=
  let localIdx := p0DataIndex in
  let globalIdx := zoomStart + localIdx in
  let r := elemZ rates globalIdx in
  speedColor (match r with
              | Some (Some r) => Some (PrimFloat.mul r 60)
              | _ => None
              end).

(** * Vocabulary of the statements and worked inputs *)

(** What the loop body makes of sample [s] when its predecessor in the
    array is [p]. *)
Definition fillWith (p : option Sample) (s : Sample) : Sample :=
  match p with
  | Some sp =>
      match ascentRate s, depth s, depth sp with
      | None, Some d, Some dp =>
          let dt := PrimFloat.sub (elapsed s) (elapsed sp) in
          if PrimFloat.ltb 0 dt
          then setAscentRate s (PrimFloat.div (PrimFloat.sub dp d) dt)
          else s
      | _, _, _ => s
      end
  | None => s
  end.

(** Two predecessors with the same depth and time fill alike. *)
Definition sameClock (p q : option Sample) : Prop :=
  (depth <$> p) = (depth <$> q) ∧ (elapsed <$> p) = (elapsed <$> q).

(** The condition under which the specification has a rate derived
    for sample [s] with predecessor [p]. *)
Definition derivable (p s : Sample) : Prop :=
  ascentRate s = None ∧ is_Some (depth s) ∧ is_Some (depth p) ∧
  PrimFloat.ltb 0 (PrimFloat.sub (elapsed s) (elapsed p)) = true.

Definition sample (t : float) (d r : option float) : Sample :=
  mkSample t d r VUndefined VUndefined VUndefined.

(** The low five bits of a descriptor's base type, as [readFieldValue]
    takes them. *)
Definition baseTypeNumber (field : FieldDef) : Z :=
  Z.land (toInt32 (num (baseType field))) 0x1F.



(** [o'] is not behind [o]; [NaN] counts as past every position. *)
Definition off_le (o o' : jsoff) : Prop :=
  match o, o' with
  | Off a, Off b => a ≤ b
  | _, OffNaN => True
  | OffNaN, Off _ => False
  end.

(** The loop run from a state, with the budget that state needs. *)
Definition run (bytes : list byte) (endOfData : Z) (st : State)
    : option (result (list RawMessage)) :=
  scan bytes endOfData (budgetFor endOfData (offset st)) st.

(** Bytes 8 to 11 are the ASCII characters of [".FIT"]. *)
Definition hasFitTag (buffer : list byte) : Prop :=
  rawAt buffer 8 = Some x2e ∧ rawAt buffer 9 = Some x46
  ∧ rawAt buffer 10 = Some x49 ∧ rawAt buffer 11 = Some x54.

Definition fitHeader (dataSize : Z) : list Z :=
  [14; 0x10; 0; 0; dataSize; 0; 0; 0; 46; 70; 73; 84; 0; 0].

(** The states that the loop of [parseFIT] passes through. *)
Inductive reaches (bytes : list byte) (endOfData : Z) : State → State → Prop :=
  | reaches_here st : reaches bytes endOfData st st
  | reaches_next st off st' st'' :
      offset st = Off off → off < endOfData →
      step bytes off st = Next st' →
      reaches bytes endOfData st' st'' →
      reaches bytes endOfData st st''.

(** A definition of local type 0 for record messages with a uint32
    timestamp and a uint32 depth, as in the spec's scenario A. *)
Definition recordDef : MesgDef :=
  mkMesgDef 20 [mkFieldDef (Some xfd) (Some x04) (Some x86);
                mkFieldDef (Some x5c) (Some x04) (Some x86)] [] true.

Definition message (n : Z) (kvs : list (Z * jsval)) : RawMessage :=
  mkRawMessage n (list_to_map (prod_map Some id <$> kvs)).

(** A text-to-number conversion for examples in which no text field is
    read. *)
Definition noText : string → float := fun _ => nan.

Definition isRecord (m : RawMessage) : Prop := _mesgNum m = MESG_RECORD.
Definition isSession (m : RawMessage) : Prop := _mesgNum m = MESG_SESSION.
Definition isDiveSummary (m : RawMessage) : Prop := _mesgNum m = MESG_DIVE_SUMMARY.

(** The spec's scenario A: a 14-byte header, a definition of local type
    0 for record messages with little-endian uint32 timestamp and depth,
    and the records [(1000, 5000)] and [(1001, 4000)]. *)
Definition scenarioA : list byte :=
  bytes_of (fitHeader 30
            ++ [0x40; 0; 0; 20; 0; 2; 253; 4; 0x86; 92; 4; 0x86]
            ++ [0x00; 0xE8; 3; 0; 0; 0x88; 0x13; 0; 0]
            ++ [0x00; 0xE9; 3; 0; 0; 0xA0; 0x0F; 0; 0]).

Definition recordsA : list RawMessage :=
  [message 20 [(253, VNum 1000); (92, VNum 5000)];
   message 20 [(253, VNum 1001); (92, VNum 4000)]].

(** The spec's scenario C: a session message (start time 1000, total
    elapsed time 60000) and no record. *)
Definition scenarioC : list byte :=
  bytes_of (fitHeader 21
            ++ [0x40; 0; 0; 18; 0; 2; 2; 4; 0x86; 7; 4; 0x86]
            ++ [0x00; 0xE8; 3; 0; 0; 0x60; 0xEA; 0; 0]).

Definition sessionC : RawMessage := message 18 [(2, VNum 1000); (7, VNum 60000)].

Definition recordB1 : RawMessage :=
  message 20 [(253, VNum 1000); (92, VNum 5000); (127, VNum (-250)); (13, VNum 21)].
Definition recordB2 : RawMessage :=
  message 20 [(253, VNum 1010); (92, VNull); (13, VNull); (96, VNum 99); (93, VNum 3)].

Definition summaryD : RawMessage := message 268 [(2, VNum 4500); (3, VNum 9000)].

Definition sessionE : RawMessage := message 18 [(2, VNum 900)].

(** A session and a summary whose fields are present with the value 0,
    and two records 10 seconds apart at 5 m and 7 m. *)
Definition sessionZero : RawMessage := message 18 [(2, VNum 0); (7, VNum 0)].
Definition summaryZero : RawMessage := message 268 [(2, VNum 0); (3, VNum 0)].
Definition recordZ1 : RawMessage := message 20 [(253, VNum 1000); (92, VNum 5000)].
Definition recordZ2 : RawMessage := message 20 [(253, VNum 1010); (92, VNum 7000)].
Definition messagesZero : list RawMessage := [sessionZero; summaryZero; recordZ1; recordZ2].

(** Sessions whose start time is present but is NaN (a float field can
    hold it) or the empty text (a text field that starts with NUL). *)
Definition sessionNaN : RawMessage := message 18 [(2, VNum nan)].
Definition sessionEmptyText : RawMessage := message 18 [(2, VStr EmptyString)].

(** The cursor after the fields [fs] of a data record read from [o]. *)
Definition cursorAfter (fs : list FieldDef) (o : jsoff) : jsoff :=
  fold_left (fun o f => off_add o (num (size f))) fs o.

(** The bytes that the descriptors declare, an undeclared size
    counting as 0. *)
Definition fieldBytes (fs : list FieldDef) : Z :=
  foldr (fun f acc => default 0 (num (size f)) + acc) 0 fs.

Definition devFieldBytes (dfs : list DevFieldDef) : Z :=
  foldr (fun df acc => default 0 (num (devSize df)) + acc) 0 dfs.

(** The property keys that the descriptors write. *)
Definition fieldKeys (fs : list FieldDef) : list (option Z) :=
  (fun f => num (fieldDefNum f)) <$> fs.

(** The bytes of a text field up to the first NUL. *)
Fixpoint untilNul (bs : list byte) : list byte :=
  match bs with
  | [] => []
  | b :: bs' => if Byte.eqb b x00 then [] else b :: untilNul bs'
  end.

(** The integer base types of the table of [readFieldValue]: smallest
    and largest value of the representation, and the sentinel. *)
Definition intRange (bt : Z) : option (Z * Z * Z) :=
  match bt with
  | 0 | 2 | 10 | 13 => Some (0, 0xFF, 0xFF)
  | 1 => Some (-0x80, 0x7F, 0x7F)
  | 3 => Some (-0x8000, 0x7FFF, 0x7FFF)
  | 4 | 11 => Some (0, 0xFFFF, 0xFFFF)
  | 5 => Some (-0x80000000, 0x7FFFFFFF, 0x7FFFFFFF)
  | 6 | 12 => Some (0, 0xFFFFFFFF, 0xFFFFFFFF)
  | _ => None
  end.

(** The invariant of the definition table: keys are local message
    types 0 to 15, a definition has at most 255 fields of each kind and
    a 16-bit global message number. *)
Definition wellFormedDef (def : MesgDef) : Prop :=
  0 ≤ globalMesgNum def < 65536
  ∧ (length (fields def) ≤ 255)%nat ∧ (length (devFields def) ≤ 255)%nat.

Definition tableInvariant (defs : gmap Z MesgDef) : Prop :=
  ∀ k def, defs !! k = Some def → 0 ≤ k ≤ 15 ∧ wellFormedDef def.

(** The rank of a colour in the order of the thresholds of
    [speedColor]: 3 for the colour above 12, 2 above 9, 1 above 6, and 0
    for the colour below (and for anything else). *)
Definition alarmLevel (colour : string) : nat :=
  if String.eqb colour "#ef476f" then 3
  else if String.eqb colour "#ff6b35" then 2
  else if String.eqb colour "#ffd166" then 1
  else 0.

(** [x <= y] on numbers, false when one of them is NaN. *)
Definition fle (x y : float) : Prop := PrimFloat.leb x y = true.

(** * Properties *)

(** ** Reading the buffer *)

Example getUint32_le : getUint32 (bytes_of [1;0;0;0]) (Off 0) true = Ok 1.
Proof. reflexivity. Qed.
Example getUint32_be : getUint32 (bytes_of [1;0;0;0]) (Off 0) false = Ok 16777216.
Proof. reflexivity. Qed.
Example getInt16_neg : getInt16 (bytes_of [0xFE;0xFF]) (Off 0) true = Ok (-2).
Proof. reflexivity. Qed.
Example getInt8_neg : getInt8 (bytes_of [0x80]) (Off 0) = Ok (-128).
Proof. reflexivity. Qed.
Example getUint16_oob : getUint16 (bytes_of [1;2;3]) (Off 2) true = Throw RangeError.
Proof. reflexivity. Qed.
Example getFloat32_one : getFloat32 (bytes_of [0x3F;0x80;0;0]) (Off 0) false = Ok 1%float.
Proof. reflexivity. Qed.
Example getFloat32_m2_5 : getFloat32 (bytes_of [0;0;0x20;0xC0]) (Off 0) true = Ok (-2.5)%float.
Proof. reflexivity. Qed.
Example getFloat64_tenth :
  getFloat64 (bytes_of [0x3F;0xB9;0x99;0x99;0x99;0x99;0x99;0x9A]) (Off 0) false = Ok 0x1.999999999999ap-4%float.
Proof. reflexivity. Qed.
Example getFloat64_denorm :
  getFloat64 (bytes_of [0;0;0;0;0;0;0;1]) (Off 0) false = Ok 0x1p-1074%float.
Proof. reflexivity. Qed.
Example getFloat64_nan :
  getFloat64 (bytes_of [0x7F;0xF8;0;0;0;0;0;0]) (Off 0) false = Ok nan.
Proof. reflexivity. Qed.

(** ** The ascent-rate backfill pass *)

Lemma fillWith_sameClock p q s : sameClock p q → fillWith p s = fillWith q s.
Proof.
  intros [Hd He]. destruct p as [p|], q as [q|]; simpl in *; try discriminate; [|done].
  injection Hd as Hd. injection He as He. unfold fillWith. by rewrite Hd, He.
Qed.

Lemma fillWith_clock p s :
  depth (fillWith p s) = depth s ∧ elapsed (fillWith p s) = elapsed s.
Proof.
  unfold fillWith. destruct p as [sp|]; [|done].
  destruct (ascentRate s), (depth s) as [d|] eqn:Hd, (depth sp); try done.
  destruct (PrimFloat.ltb _ _); simpl; by rewrite ?Hd.
Qed.

(** The loop body as a single write of the refilled sample. *)
Lemma backfillAt_insert i l si :
  l !! i = Some si →
  backfillAt i l = <[i := fillWith (l !! (i - 1)%nat) si]> l.
Proof.
  intros Hi. unfold backfillAt, fillWith. rewrite Hi.
  destruct (l !! (i - 1)%nat) as [sp|]; [|by rewrite list_insert_id].
  destruct (ascentRate si), (depth si), (depth sp); try by rewrite list_insert_id.
  destruct (PrimFloat.ltb _ _); [done | by rewrite list_insert_id].
Qed.

Lemma backfillAt_none i l : l !! i = None → backfillAt i l = l.
Proof. intros Hi. unfold backfillAt. by rewrite Hi. Qed.

Lemma backfillAt_length i l : length (backfillAt i l) = length l.
Proof.
  destruct (l !! i) as [si|] eqn:Hi.
  - rewrite (backfillAt_insert i l si Hi). apply length_insert.
  - by rewrite backfillAt_none.
Qed.

Lemma backfillAt_self i l :
  backfillAt i l !! i = fillWith (l !! (i - 1)%nat) <$> l !! i.
Proof.
  destruct (l !! i) as [si|] eqn:Hi.
  - rewrite (backfillAt_insert i l si Hi). simpl.
    apply list_lookup_insert_eq. by eapply lookup_lt_Some.
  - by rewrite backfillAt_none.
Qed.

Lemma backfillAt_other i k l : k ≠ i → backfillAt i l !! k = l !! k.
Proof.
  intros Hne. destruct (l !! i) as [si|] eqn:Hi.
  - rewrite (backfillAt_insert i l si Hi). by apply list_lookup_insert_ne.
  - by rewrite backfillAt_none.
Qed.

Lemma backfillAt_sameClock i k l : sameClock (backfillAt i l !! k) (l !! k).
Proof.
  destruct (decide (k = i)) as [->|Hne].
  - rewrite backfillAt_self. destruct (l !! i) as [s|]; [|done].
    split; simpl; f_equal; apply fillWith_clock.
  - by rewrite backfillAt_other.
Qed.

Lemma backfillFrom_length n i l : length (backfillFrom n i l) = length l.
Proof.
  revert i l. induction n as [|n IH]; intros i l; simpl; [done|].
  case (i <? length l)%nat; [|done]. by rewrite IH, backfillAt_length.
Qed.

(** The loop started at [i] with budget [n] rewrites exactly the
    indices [i .. i+n-1], each from its own old value and the clock of
    its predecessor. *)
Lemma backfillFrom_lookup n i k l :
  (1 ≤ i)%nat →
  backfillFrom n i l !! k =
    if decide (i ≤ k < i + n)%nat then fillWith (l !! (k - 1)%nat) <$> l !! k else l !! k.
Proof.
  revert i l. induction n as [|n IH]; intros i l Hi; simpl.
  { case_decide; [lia | done]. }
  destruct (i <? length l)%nat eqn:Hlt.
  - rewrite IH by lia.
    destruct (decide (k = i)) as [->|Hne].
    + rewrite decide_False by lia. rewrite decide_True by lia. apply backfillAt_self.
    + rewrite (backfillAt_other i k) by done.
      case_decide.
      * rewrite decide_True by lia. destruct (l !! k) as [s|]; [|done]. simpl.
        f_equal. apply fillWith_sameClock, backfillAt_sameClock.
      * rewrite decide_False by lia. done.
  - apply Nat.ltb_ge in Hlt. case_decide; [|done].
    rewrite (lookup_ge_None_2 l k) by lia. done.
Qed.

Lemma backfill_length l : length (backfill l) = length l.
Proof. apply backfillFrom_length. Qed.

Lemma backfill_lookup_0 l : backfill l !! 0%nat = l !! 0%nat.
Proof. unfold backfill. rewrite backfillFrom_lookup by lia. by rewrite decide_False by lia. Qed.

Lemma backfill_lookup_S l k :
  backfill l !! S k = fillWith (l !! k) <$> l !! S k.
Proof.
  unfold backfill. rewrite backfillFrom_lookup by lia.
  replace (S k - 1)%nat with k by lia.
  case_decide; [done|].
  rewrite (lookup_ge_None_2 l (S k)) by lia. done.
Qed.

Lemma fillWith_not_derivable p s : ¬ derivable p s → fillWith (Some p) s = s.
Proof.
  intros Hn. unfold fillWith.
  destruct (ascentRate s) eqn:Ha; [done|].
  destruct (depth s) eqn:Hd; [|done]. destruct (depth p) eqn:Hp; [|done].
  destruct (PrimFloat.ltb _ _) eqn:Hlt; [|done].
  destruct Hn. unfold derivable. rewrite Hd, Hp. eauto.
Qed.

(** C1. Ascent-rate backfill. For an index [i >= 1] whose sample has no
    ascent rate, while it and its predecessor both have a depth and the
    elapsed-time delta is strictly positive, the pass sets the rate to
    [(depth[i-1] - depth[i]) / delta]. A sample that does not meet the
    condition (index 0, a missing depth on either side, a delta that is
    not positive, or a rate already there) is left as it was. When every
    sample carries a rate, the pass is the identity. *)
Theorem backfill_ascent_rate (samples : list Sample) :
  (∀ i p s d dp,
     samples !! i = Some p → samples !! S i = Some s →
     ascentRate s = None → depth s = Some d → depth p = Some dp →
     PrimFloat.ltb 0 (PrimFloat.sub (elapsed s) (elapsed p)) = true →
     backfill samples !! S i =
       Some (setAscentRate s
              (PrimFloat.div (PrimFloat.sub dp d) (PrimFloat.sub (elapsed s) (elapsed p)))))
  ∧ (∀ i s,
       samples !! i = Some s →
       (i = 0%nat ∨ ∃ p, samples !! (i - 1)%nat = Some p ∧ ¬ derivable p s) →
       backfill samples !! i = Some s)
  ∧ ((∀ s, s ∈ samples → ascentRate s ≠ None) → backfill samples = samples).
Proof.
  split; [|split].
  - intros i p s d dp Hp Hs Ha Hd Hdp Hlt.
    rewrite backfill_lookup_S, Hp, Hs. simpl.
    by rewrite Ha, Hd, Hdp, Hlt.
  - intros i s Hs [->|(p & Hp & Hn)].
    + by rewrite backfill_lookup_0.
    + destruct i as [|i]; [by rewrite backfill_lookup_0|].
      replace (S i - 1)%nat with i in Hp by lia.
      rewrite backfill_lookup_S, Hp, Hs. simpl. f_equal.
      by apply fillWith_not_derivable.
  - intros Hall. apply list_eq. intros [|i].
    + apply backfill_lookup_0.
    + rewrite backfill_lookup_S. destruct (samples !! S i) as [s|] eqn:Hs; [|done].
      simpl. f_equal. unfold fillWith. destruct (samples !! i); [|done].
      destruct (ascentRate s) eqn:Ha; [done|].
      destruct (Hall s); [|done]. apply list_elem_of_lookup. eauto.
Qed.

(** The spec's example: depths [10, 8] at times [0, 2] give the second
    sample the rate [(10 - 8) / 2 = 1]; the first sample, and a list in
    which every rate is present, are left alone. *)
Lemma backfill_ascent_rate_witness :
  let l := [sample 0 (Some 10%float) None; sample 2 (Some 8%float) None] in
  let l' := [sample 0 (Some 10%float) (Some 0.5%float); sample 2 (Some 8%float) (Some 3%float)] in
  backfill l !! 1%nat = Some (sample 2 (Some 8%float) (Some 1%float))
  ∧ backfill l !! 0%nat = Some (sample 0 (Some 10%float) None)
  ∧ backfill l' = l'.
Proof.
  intros l l'. split; [|split].
  - exact (proj1 (backfill_ascent_rate l) 0%nat _ _ 8%float 10%float
             eq_refl eq_refl eq_refl eq_refl eq_refl eq_refl).
  - apply (proj1 (proj2 (backfill_ascent_rate l)) 0%nat); [reflexivity | by left].
  - apply (proj2 (proj2 (backfill_ascent_rate l'))).
    intros s Hs. apply list_elem_of_In in Hs. simpl in Hs.
    destruct Hs as [<-|[<-|[]]]; discriminate.
Defined.

(** The sample at an index keeps everything but, possibly, an ascent
    rate that was absent. *)
Lemma backfill_keeps (samples : list Sample) (i : nat) (s : Sample) :
  samples !! i = Some s →
  ∃ s', backfill samples !! i = Some s'
    ∧ elapsed s' = elapsed s ∧ depth s' = depth s
    ∧ temperature s' = temperature s ∧ ndl s' = ndl s ∧ cns s' = cns s
    ∧ (ascentRate s ≠ None → s' = s)
    ∧ (i = 0%nat → s' = s).
Proof.
  destruct i as [|i]; intros Hs.
  - exists s. by rewrite backfill_lookup_0.
  - exists (fillWith (samples !! i) s). rewrite backfill_lookup_S, Hs.
    split; [done|].
    assert (Hshape : fillWith (samples !! i) s = s
                     ∨ ascentRate s = None ∧ ∃ r, fillWith (samples !! i) s = setAscentRate s r).
    { unfold fillWith. destruct (samples !! i) as [p|]; [|by left].
      destruct (ascentRate s); [by left|].
      destruct (depth s); [|by left]. destruct (depth p); [|by left].
      destruct (PrimFloat.ltb _ _); [right; eauto | by left]. }
    destruct Hshape as [->|(Ha & r & ->)]; [done|].
    repeat split; try done.
Qed.

(** C10. Frame condition of the backfill pass. The list keeps its
    length, and the sample at each index keeps its elapsed time, depth,
    temperature, NDL and CNS. A sample whose ascent rate is present, and
    the sample at index 0, are not changed at all: only an absent rate at
    an index [i >= 1] can be assigned. *)
Theorem backfill_frame (samples : list Sample) :
  length (backfill samples) = length samples
  ∧ ∀ i s, samples !! i = Some s →
      ∃ s', backfill samples !! i = Some s'
        ∧ elapsed s' = elapsed s ∧ depth s' = depth s
        ∧ temperature s' = temperature s ∧ ndl s' = ndl s ∧ cns s' = cns s
        ∧ (ascentRate s ≠ None → s' = s)
        ∧ (i = 0%nat → s' = s).
Proof.
  split; [apply backfill_length|]. intros i s. apply backfill_keeps.
Qed.

Lemma backfill_frame_witness :
  let l := [sample 0 (Some 10%float) None; sample 2 (Some 8%float) None] in
  l !! 1%nat = Some (sample 2 (Some 8%float) None)
  ∧ ∃ s', backfill l !! 1%nat = Some s'
        ∧ elapsed s' = 2%float ∧ depth s' = Some 8%float
        ∧ temperature s' = VUndefined ∧ ndl s' = VUndefined ∧ cns s' = VUndefined
        ∧ (@None float ≠ None → s' = sample 2 (Some 8%float) None)
        ∧ (1%nat = 0%nat → s' = sample 2 (Some 8%float) None).
Proof.
  intros l. split; [reflexivity|].
  exact (proj2 (backfill_frame l) 1%nat _ eq_refl).
Defined.

(** ** Scalar decoding *)

Lemma baseTypeNumber_range field : 0 ≤ baseTypeNumber field < 32.
Proof.
  unfold baseTypeNumber. change 0x1F with (Z.ones 5).
  rewrite Z.land_ones by lia. apply Z.mod_pos_bound. lia.
Qed.

Lemma readFieldValue_cursor bytes field le o v o' :
  readFieldValue bytes field le o = Ok (v, o') → o' = off_add o (num (size field)).
Proof.
  unfold readFieldValue.
  match goal with |- (?e ≫= _) = _ → _ => destruct e as [val|err] end;
    simpl; intros H; by simplify_eq.
Qed.

(** A uint32 field (low bits 6 or 12) decodes to the value read, or to
    [null] when that is the sentinel. *)
Lemma readFieldValue_uint32 bytes field le o v :
  baseTypeNumber field = 6 ∨ baseTypeNumber field = 12 →
  getUint32 bytes o le = Ok v →
  readFieldValue bytes field le o = Ok (orNull 0xFFFFFFFF v, off_add o (num (size field))).
Proof.
  intros Hbt Hv. unfold readFieldValue. fold (baseTypeNumber field).
  destruct Hbt as [->| ->]; lazy beta iota zeta; by rewrite Hv.
Qed.

Lemma view_in_range bytes i w :
  0 ≤ i → i + Z.of_nat w ≤ Z.of_nat (length bytes) → ∃ bs, view bytes i w = Ok bs.
Proof.
  intros H0 H1. unfold view.
  rewrite (proj2 (Z.leb_le 0 i)) by done.
  rewrite (proj2 (Z.leb_le _ _)) by done. simpl. eauto.
Qed.

Lemma getUint_in_range w bytes o le :
  0 ≤ toIndex o → toIndex o + Z.of_nat w ≤ Z.of_nat (length bytes) →
  ∃ v, getUint w bytes o le = Ok v.
Proof.
  intros H0 H1. unfold getUint.
  destruct (view_in_range bytes (toIndex o) w H0 H1) as [bs ->]. simpl. eauto.
Qed.





(** ** The record-stream loop: progress and termination *)

Lemma off_le_refl o : off_le o o.
Proof. destruct o; simpl; lia. Qed.

Lemma off_le_trans o1 o2 o3 : off_le o1 o2 → off_le o2 o3 → off_le o1 o3.
Proof. destruct o1, o2, o3; simpl; try done; lia. Qed.

Lemma u8_range b : 0 ≤ u8 b < 256.
Proof. destruct b; vm_compute; split; congruence. Qed.

Lemma off_add_le o (k : option byte) : off_le o (off_add o (num k)).
Proof.
  destruct o as [n|], k as [b|]; simpl; try done.
  pose proof (u8_range b). lia.
Qed.

Lemma readFields_le bytes fs le obj o obj' o' :
  readFields bytes fs le obj o = Ok (obj', o') → off_le o o'.
Proof.
  revert obj o. induction fs as [|f fs IH]; intros obj o; simpl.
  - intros H. simplify_eq. apply off_le_refl.
  - destruct (readFieldValue bytes f le o) as [[v o1]|e] eqn:Hf; simpl; [|done].
    intros H. apply IH in H. apply readFieldValue_cursor in Hf. subst o1.
    eapply off_le_trans; [apply off_add_le | done].
Qed.

Lemma skipDevFields_le dfs o : off_le o (skipDevFields dfs o).
Proof.
  unfold skipDevFields. revert o. induction dfs as [|df dfs IH]; intros o; simpl.
  - apply off_le_refl.
  - eapply off_le_trans; [apply off_add_le | apply IH].
Qed.

Lemma readDataMessage_le bytes def o msg o' :
  readDataMessage bytes def o = Ok (msg, o') → off_le o o'.
Proof.
  unfold readDataMessage.
  destruct (readFields _ _ _ _ _) as [[obj o1]|e] eqn:Hf; simpl; [|done].
  intros H. simplify_eq. eapply off_le_trans; [by eapply readFields_le | apply skipDevFields_le].
Qed.

Lemma readFieldDefs_le bytes n off fs off' :
  readFieldDefs bytes n off = (fs, off') → off ≤ off'.
Proof.
  revert off fs off'. induction n as [|n IH]; intros off fs off'; simpl.
  - intros H. simplify_eq. lia.
  - destruct (readFieldDefs bytes n (off + 3)) as [rest o1] eqn:Hr.
    intros H. simplify_eq. apply IH in Hr. lia.
Qed.

Lemma readDevFieldDefs_le bytes n off fs off' :
  readDevFieldDefs bytes n off = (fs, off') → off ≤ off'.
Proof.
  revert off fs off'. induction n as [|n IH]; intros off fs off'; simpl.
  - intros H. simplify_eq. lia.
  - destruct (readDevFieldDefs bytes n (off + 3)) as [rest o1] eqn:Hr.
    intros H. simplify_eq. apply IH in Hr. lia.
Qed.

Lemma readDefinition_le bytes dev off def off' :
  readDefinition bytes dev off = Ok (def, off') → off ≤ off'.
Proof.
  unfold readDefinition.
  destruct (getUint16 _ _ _) as [g|e]; simpl; [|done].
  destruct (readFieldDefs _ _ _) as [fs o1] eqn:Hf. apply readFieldDefs_le in Hf.
  destruct dev.
  - destruct (readDevFieldDefs _ _ _) as [dfs o2] eqn:Hd. apply readDevFieldDefs_le in Hd.
    intros H. simplify_eq. lia.
  - intros H. simplify_eq. lia.
Qed.

(** Every iteration that continues has consumed the header byte. *)
Lemma step_progress bytes off st st' :
  step bytes off st = Next st' → off_le (Off (off + 1)) (offset st').
Proof.
  unfold step.
  destruct (negb (Z.land _ 128 =? 0)).
  - destruct (definitions st !! _) as [def|].
    + destruct (readDataMessage _ _ _) as [[msg o']|e] eqn:Hr; [|done].
      intros H. simplify_eq. exact (readDataMessage_le _ _ _ _ _ Hr).
    + intros H. simplify_eq. simpl. lia.
  - destruct (negb (Z.land _ 64 =? 0)).
    + destruct (readDefinition _ _ _) as [[def o']|e] eqn:Hr; [|done].
      intros H. simplify_eq. pose proof (readDefinition_le _ _ _ _ _ Hr). simpl. lia.
    + destruct (definitions st !! _) as [def|]; [|done].
      destruct (readDataMessage _ _ _) as [[msg o']|e] eqn:Hr; [|done].
      intros H. simplify_eq. exact (readDataMessage_le _ _ _ _ _ Hr).
Qed.

Lemma budgetFor_step endOfData off o' :
  off < endOfData → off_le (Off (off + 1)) o' →
  (S (budgetFor endOfData o') ≤ budgetFor endOfData (Off off))%nat.
Proof. destruct o' as [n|]; simpl; lia. Qed.

(** Any two budgets that cover the distance to [endOfData] give the same
    result, and that result exists. *)
Lemma scan_budget bytes endOfData b1 b2 st :
  (budgetFor endOfData (offset st) ≤ b1)%nat →
  (budgetFor endOfData (offset st) ≤ b2)%nat →
  scan bytes endOfData b1 st = scan bytes endOfData b2 st.
Proof.
  revert b2 st. induction b1 as [|b1 IH]; intros b2 st H1 H2.
  - destruct b2 as [|b2]; [done|]. simpl.
    destruct (offset st) as [off|]; [|done].
    destruct (off <? endOfData) eqn:Hlt; [|done].
    apply Z.ltb_lt in Hlt. simpl in H1. lia.
  - simpl. destruct b2 as [|b2]; simpl.
    + destruct (offset st) as [off|]; [|done].
      destruct (off <? endOfData) eqn:Hlt; [|done].
      apply Z.ltb_lt in Hlt. simpl in H2. lia.
    + destruct (offset st) as [off|] eqn:Ho; [|done].
      destruct (off <? endOfData) eqn:Hlt; [|done]. apply Z.ltb_lt in Hlt.
      destruct (step bytes off st) as [st'| |e] eqn:Hs; try done.
      pose proof (budgetFor_step endOfData off _ Hlt (step_progress _ _ _ _ Hs)).
      apply IH; lia.
Qed.

Lemma scan_total bytes endOfData b st :
  (budgetFor endOfData (offset st) ≤ b)%nat →
  ∃ r, scan bytes endOfData b st = Some r.
Proof.
  revert st. induction b as [|b IH]; intros st Hb; simpl.
  - destruct (offset st) as [off|]; [|eauto].
    destruct (off <? endOfData) eqn:Hlt; [|eauto].
    apply Z.ltb_lt in Hlt. simpl in Hb. lia.
  - destruct (offset st) as [off|] eqn:Ho; [|eauto].
    destruct (off <? endOfData) eqn:Hlt; [|eauto]. apply Z.ltb_lt in Hlt.
    destruct (step bytes off st) as [st'| |e] eqn:Hs; eauto.
    pose proof (budgetFor_step endOfData off _ Hlt (step_progress _ _ _ _ Hs)).
    apply IH. lia.
Qed.

Lemma run_total bytes endOfData st : ∃ r, run bytes endOfData st = Some r.
Proof. by apply scan_total. Qed.

Lemma run_unfold bytes endOfData st off :
  offset st = Off off → off < endOfData →
  run bytes endOfData st =
    match step bytes off st with
    | Next st' => run bytes endOfData st'
    | Break => Some (Ok (messages st))
    | Raise e => Some (Throw e)
    end.
Proof.
  intros Ho Hlt. unfold run. rewrite Ho.
  destruct (budgetFor endOfData (Off off)) as [|b] eqn:Hb; [simpl in Hb; lia|].
  simpl. rewrite Ho. rewrite (proj2 (Z.ltb_lt _ _) Hlt).
  destruct (step bytes off st) as [st'| |e] eqn:Hs; try done.
  pose proof (budgetFor_step endOfData off _ Hlt (step_progress _ _ _ _ Hs)).
  apply scan_budget; lia.
Qed.

Lemma run_done bytes endOfData st :
  (offset st = OffNaN ∨ ∃ off, offset st = Off off ∧ endOfData ≤ off) →
  run bytes endOfData st = Some (Ok (messages st)).
Proof.
  intros [Ho|(off & Ho & Hge)]; unfold run; rewrite Ho.
  - simpl. by rewrite Ho.
  - destruct (budgetFor _ _); simpl; rewrite Ho;
      by rewrite (proj2 (Z.ltb_ge _ _) Hge).
Qed.

(** The loop raises nothing but the range error of a getter. *)
Lemma step_raise bytes off st e : step bytes off st = Raise e → e = RangeError.
Proof.
  assert (Hview : ∀ i w bs' e', view bytes i w = bs' → bs' = Throw e' → e' = RangeError).
  { intros i w bs' e' <-. unfold view. destruct (_ && _); intros H; by simplify_eq. }
  assert (Huint : ∀ w o le e', getUint w bytes o le = Throw e' → e' = RangeError).
  { intros w o le e'. unfold getUint.
    destruct (view bytes (toIndex o) w) as [bs|e1] eqn:Hv; simpl; [done|].
    intros H. simplify_eq. by eapply Hview. }
  assert (Hint : ∀ w o le e', getInt w bytes o le = Throw e' → e' = RangeError).
  { intros w o le e'. unfold getInt.
    destruct (getUint w bytes o le) as [v|e1] eqn:Hv; simpl; [done|].
    intros H. simplify_eq. by eapply Huint. }
  assert (Hfield : ∀ f le o e', readFieldValue bytes f le o = Throw e' → e' = RangeError).
  { intros f le o e'. unfold readFieldValue.
    pose proof (baseTypeNumber_range f) as Hr. unfold baseTypeNumber in Hr.
    destruct (Z.land (toInt32 (num (baseType f))) 31) as [|p|p]; [| |lia].
    - simpl. done.
    - do 5 (try destruct p as [p|p|]); try (simpl; done); try lia;
        lazy beta iota zeta;
        unfold getInt8, getInt16, getInt32, getUint16, getUint32, getFloat32, getFloat64;
        match goal with
        | |- context [getInt ?w bytes o ?l] =>
            destruct (getInt w bytes o l) as [v|e1] eqn:Hv; simpl; [done|];
            intros H; simplify_eq; by eapply Hint
        | |- context [getUint ?w bytes o ?l] =>
            destruct (getUint w bytes o l) as [v|e1] eqn:Hv; simpl; [done|];
            intros H; simplify_eq; by eapply Huint
        end. }
  assert (Hfields : ∀ fs le obj o e', readFields bytes fs le obj o = Throw e' → e' = RangeError).
  { induction fs as [|f fs IH]; intros le obj o e'; simpl; [done|].
    destruct (readFieldValue bytes f le o) as [[v o1]|e1] eqn:Hf; simpl.
    - apply IH.
    - intros H. simplify_eq. by eapply Hfield. }
  assert (Hmsg : ∀ def o e', readDataMessage bytes def o = Throw e' → e' = RangeError).
  { intros def o e'. unfold readDataMessage.
    destruct (readFields _ _ _ _ _) as [[obj o1]|e1] eqn:Hf; simpl; [done|].
    intros H. simplify_eq. by eapply Hfields. }
  unfold step.
  destruct (negb (Z.land _ 128 =? 0)).
  - destruct (definitions st !! _) as [def|]; [|done].
    destruct (readDataMessage _ _ _) as [[msg o']|e1] eqn:Hr; [done|].
    intros H. simplify_eq. by eapply Hmsg.
  - destruct (negb (Z.land _ 64 =? 0)).
    + destruct (readDefinition _ _ _) as [[def o']|e1] eqn:Hr; [done|].
      intros H. simplify_eq. revert Hr. unfold readDefinition.
      destruct (getUint16 _ _ _) as [g|e1] eqn:Hg; simpl.
      * destruct (readFieldDefs _ _ _).
        match goal with |- context [if ?c then _ else _] => destruct c end;
          [destruct (readDevFieldDefs _ _ _)|]; done.
      * intros H. simplify_eq. by eapply Huint.
    + destruct (definitions st !! _) as [def|]; [|done].
      destruct (readDataMessage _ _ _) as [[msg o']|e1] eqn:Hr; [done|].
      intros H. simplify_eq. by eapply Hmsg.
Qed.

Lemma scan_throw bytes endOfData b st e :
  scan bytes endOfData b st = Some (Throw e) → e = RangeError.
Proof.
  revert st. induction b as [|b IH]; intros st; simpl.
  - destruct (offset st) as [off|]; [|done]. by destruct (off <? endOfData).
  - destruct (offset st) as [off|]; [|done].
    destruct (off <? endOfData); [|done].
    destruct (step bytes off st) as [st'| |e1] eqn:Hs; [apply IH | done |].
    intros H. simplify_eq. by eapply step_raise.
Qed.

(** ** Header validation *)

Lemma fromCharCode_byte (c : option byte) (b : byte) :
  fromCharCode (u8 <$> c) = ascii_of_byte b ↔ c = Some b ∨ (c = None ∧ b = x00).
Proof.
  destruct c as [b'|]; simpl.
  - assert (Hb : fromCharCode (Some (u8 b')) = ascii_of_byte b') by (by destruct b').
    rewrite Hb. split.
    + intros H. left. f_equal.
      apply (f_equal byte_of_ascii) in H. by rewrite !byte_of_ascii_of_byte in H.
    + intros [H|[H _]]; by simplify_eq.
  - change (fromCharCode None) with (ascii_of_byte x00). split.
    + intros H. right. split; [done|].
      apply (f_equal byte_of_ascii) in H. by rewrite !byte_of_ascii_of_byte in H.
    + intros [H|[_ ->]]; done.
Qed.

Lemma dataType_tag buffer : dataType buffer = FIT_TAG ↔ hasFitTag buffer.
Proof.
  unfold dataType, FIT_TAG, hasFitTag, byteAt.
  change "."%char with (ascii_of_byte x2e). change "F"%char with (ascii_of_byte x46).
  change "I"%char with (ascii_of_byte x49). change "T"%char with (ascii_of_byte x54).
  split.
  - intros H. injection H as H8 H9 H10 H11.
    apply fromCharCode_byte in H8, H9, H10, H11.
    destruct H8 as [H8|[_ ?]]; [|done]. destruct H9 as [H9|[_ ?]]; [|done].
    destruct H10 as [H10|[_ ?]]; [|done]. destruct H11 as [H11|[_ ?]]; [|done].
    done.
  - intros (H8 & H9 & H10 & H11).
    repeat f_equal; apply fromCharCode_byte; by left.
Qed.

Lemma view_length bytes i w bs : view bytes i w = Ok bs → i + Z.of_nat w ≤ Z.of_nat (length bytes).
Proof.
  unfold view. destruct (0 <=? i); simpl; [|done].
  destruct (_ <=? _) eqn:H; [|done]. intros _. by apply Z.leb_le.
Qed.

Lemma getUint_length w bytes n le v :
  getUint w bytes (Off n) le = Ok v → n + Z.of_nat w ≤ Z.of_nat (length bytes).
Proof.
  unfold getUint. destruct (view bytes (toIndex (Off n)) w) as [bs|] eqn:Hv; [|done].
  intros _. by apply view_length in Hv.
Qed.

Lemma getUint_short w bytes n le :
  Z.of_nat (length bytes) < n + Z.of_nat w → getUint w bytes (Off n) le = Throw RangeError.
Proof.
  intros H. unfold getUint, view. simpl.
  rewrite (proj2 (Z.leb_gt (n + Z.of_nat w) _)) by lia. by rewrite andb_false_r.
Qed.

Lemma rawAt_in_range bytes i :
  0 ≤ i < Z.of_nat (length bytes) → ∃ b, rawAt bytes i = Some b.
Proof.
  intros H. unfold rawAt. rewrite (proj2 (Z.ltb_ge _ _)) by lia.
  apply lookup_lt_is_Some_2. lia.
Qed.

(** With a readable header and the tag in place, [parseFIT] is the loop
    started at [headerSize] with no definitions and no messages. *)
Lemma parseFIT_valid buffer h dataSize :
  rawAt buffer 0 = Some h → getUint32 buffer (Off 4) true = Ok dataSize →
  hasFitTag buffer →
  parseFIT buffer = run buffer (u8 h + dataSize) (initState (u8 h)).
Proof.
  intros Hh Hd Htag. unfold parseFIT. unfold getUint32 in *.
  pose proof (getUint_length _ _ _ _ _ Hd) as Hlen.
  destruct (getUint_in_range 2 buffer (Off 2) true) as [pv Hpv]; [simpl; lia..|].
  unfold getUint16. rewrite Hpv. rewrite Hd.
  apply dataType_tag in Htag. rewrite Htag. simpl.
  unfold byteAt. rewrite Hh. done.
Qed.

(** [parseFIT] always comes to a result: the budget it gives the loop
    is never used up. *)
Lemma parseFIT_total buffer : ∃ r, parseFIT buffer = Some r.
Proof.
  unfold parseFIT.
  destruct (getUint16 buffer (Off 2) true); [|eauto].
  destruct (getUint32 buffer (Off 4) true); [|eauto].
  destruct (negb _); [eauto|]. by apply scan_total.
Qed.

Lemma no_tag_short buffer : (length buffer < 12)%nat → ¬ hasFitTag buffer.
Proof.
  intros Hlen (_ & _ & _ & H). unfold rawAt in H. simpl in H.
  apply lookup_lt_Some in H. lia.
Qed.

(** C4 (amended). Header tag validation. For a buffer of at least 8
    bytes, the decoder raises the format error exactly when bytes 8-11
    are not [".FIT"]; the error comes before the loop, so no message
    sequence is produced. When the tag is there, decoding is the record
    loop started with the cursor at the header length (byte 0), no
    definition and no message. A buffer shorter than 8 bytes raises a
    range error while the header's length fields are read. *)
Theorem header_tag_validation (buffer : list byte) :
  ((8 ≤ length buffer)%nat →
     (¬ hasFitTag buffer → parseFIT buffer = Some (Throw FormatError))
     ∧ (hasFitTag buffer →
          parseFIT buffer ≠ Some (Throw FormatError)
          ∧ ∃ h dataSize,
              rawAt buffer 0 = Some h
              ∧ getUint32 buffer (Off 4) true = Ok dataSize
              ∧ parseFIT buffer =
                  run buffer (u8 h + dataSize) (mkState (Off (u8 h)) ∅ [])))
  ∧ ((length buffer < 8)%nat → parseFIT buffer = Some (Throw RangeError)).
Proof.
  split.
  - intros Hlen.
    destruct (getUint_in_range 2 buffer (Off 2) true) as [pv Hpv]; [simpl; lia..|].
    destruct (getUint_in_range 4 buffer (Off 4) true) as [ds Hds]; [simpl; lia..|].
    destruct (rawAt_in_range buffer 0) as [h Hh]; [lia|].
    split.
    + intros Hno. unfold parseFIT, getUint16, getUint32. rewrite Hpv, Hds.
      destruct (String.eqb (dataType buffer) FIT_TAG) eqn:He; [|done].
      apply String.eqb_eq, dataType_tag in He. done.
    + intros Htag. rewrite (parseFIT_valid buffer h ds Hh Hds Htag). split.
      * intros H. apply scan_throw in H. done.
      * exists h, ds. done.
  - intros Hlen. unfold parseFIT, getUint16, getUint32.
    destruct (getUint 2 buffer (Off 2) true) as [pv|e] eqn:Hpv.
    + rewrite getUint_short; [done | simpl; lia].
    + destruct (decide (length buffer < 4)%nat).
      * rewrite getUint_short in Hpv by (simpl; lia). by simplify_eq.
      * destruct (getUint_in_range 2 buffer (Off 2) true) as [v Hv]; [simpl; lia..|].
        congruence.
Qed.

(** The spec's scenario B: the tag bytes ["XFIT"]; and a well-tagged
    header with an empty data section. *)
Lemma header_tag_validation_witness :
  let bad := bytes_of [14; 0x10; 0; 0; 0; 0; 0; 0; 88; 70; 73; 84; 0; 0] in
  let good := bytes_of (fitHeader 0) in
  let short := bytes_of [14; 0x10; 0] in
  ((8 ≤ length bad)%nat ∧ ¬ hasFitTag bad ∧ parseFIT bad = Some (Throw FormatError))
  ∧ ((8 ≤ length good)%nat ∧ hasFitTag good ∧ parseFIT good = Some (Ok []))
  ∧ ((length short < 8)%nat ∧ parseFIT short = Some (Throw RangeError)).
Proof.
  intros bad good short.
  assert (Hb : (8 ≤ length bad)%nat) by (vm_compute; lia).
  assert (Hg : (8 ≤ length good)%nat) by (vm_compute; lia).
  assert (Hs : (length short < 8)%nat) by (vm_compute; lia).
  assert (Hnt : ¬ hasFitTag bad) by (intros [H _]; vm_compute in H; discriminate).
  assert (Ht : hasFitTag good) by (repeat split).
  split; [|split].
  - split; [done|]. split; [done|].
    exact (proj1 (proj1 (header_tag_validation bad) Hb) Hnt).
  - split; [done|]. split; [done|].
    destruct (proj2 (proj2 (proj1 (header_tag_validation good) Hg) Ht))
      as (h & ds & Hh & Hds & ->).
    vm_compute in Hh. vm_compute in Hds. simplify_eq. reflexivity.
  - split; [done|]. exact (proj2 (header_tag_validation _) Hs).
Defined.

(** A buffer too short to hold the header's length fields: the tag is
    not there, and the error raised is not the format error. *)
Lemma header_tag_short_buffer :
  ¬ (parseFIT [] = Some (Throw FormatError) ↔ ¬ hasFitTag []).
Proof.
  intros [_ H]. specialize (H (no_tag_short [] ltac:(simpl; lia))).
  vm_compute in H. discriminate.
Qed.

(** ** Record headers *)

Lemma land_pow2_eqb h k : 0 ≤ k → (Z.land h (2 ^ k) =? 0) = negb (Z.testbit h k).
Proof.
  intros Hk.
  assert (H : Z.land h (2 ^ k) = if Z.testbit h k then 2 ^ k else 0).
  { apply Z.bits_inj'. intros m Hm. rewrite Z.land_spec, Z.pow2_bits_eqb by done.
    destruct (Z.eqb_spec k m) as [->|Hne].
    - destruct (Z.testbit h m); [by rewrite Z.pow2_bits_true | by rewrite Z.bits_0].
    - rewrite andb_false_r.
      destruct (Z.testbit h k); [by rewrite Z.pow2_bits_false | by rewrite Z.bits_0]. }
  rewrite H. destruct (Z.testbit h k); simpl; [|done].
  apply Z.eqb_neq. pose proof (Z.pow_pos_nonneg 2 k). lia.
Qed.

Lemma bit7 h : (Z.land h 0x80 =? 0) = negb (Z.testbit h 7).
Proof. apply (land_pow2_eqb h 7). lia. Qed.

Lemma bit6 h : (Z.land h 0x40 =? 0) = negb (Z.testbit h 6).
Proof. apply (land_pow2_eqb h 6). lia. Qed.

Lemma run_reaches bytes endOfData st st' :
  reaches bytes endOfData st st' → run bytes endOfData st = run bytes endOfData st'.
Proof.
  induction 1 as [|st off st' st'' Ho Hlt Hs _ IH]; [done|].
  by rewrite (run_unfold _ _ _ _ Ho Hlt), Hs.
Qed.

(** Messages are only ever appended. *)
Lemma reaches_messages bytes endOfData st st' :
  reaches bytes endOfData st st' → ∃ more, messages st' = messages st ++ more.
Proof.
  induction 1 as [st|st off st' st'' Ho Hlt Hs _ [more IH]].
  - exists []. by rewrite app_nil_r.
  - assert (∃ m1, messages st' = messages st ++ m1) as [m1 Hm1].
    { revert Hs. unfold step.
      destruct (negb (Z.land _ 128 =? 0)).
      - destruct (definitions st !! _) as [def|].
        + destruct (readDataMessage _ _ _) as [[msg o']|e]; [|done].
          intros H. simplify_eq. simpl. eauto.
        + intros H. simplify_eq. exists []. simpl. by rewrite app_nil_r.
      - destruct (negb (Z.land _ 64 =? 0)).
        + destruct (readDefinition _ _ _) as [[def o']|e]; [|done].
          intros H. simplify_eq. exists []. simpl. by rewrite app_nil_r.
        + destruct (definitions st !! _) as [def|]; [|done].
          destruct (readDataMessage _ _ _) as [[msg o']|e]; [|done].
          intros H. simplify_eq. simpl. eauto. }
    exists (m1 ++ more). by rewrite IH, Hm1, app_assoc.
Qed.

(** C5. A data record without a definition. When the loop of [parseFIT]
    reaches a record header with bits 6 and 7 clear whose local message
    type (bits 0-3) has no stored definition, the iteration breaks out of
    the loop, and [parseFIT] returns the messages decoded up to that
    point, in order, as its result: no error, nothing discarded. *)
Theorem data_record_without_definition
    (buffer : list byte) (h : byte) (dataSize : Z) (st : State) (off : Z) :
  rawAt buffer 0 = Some h →
  getUint32 buffer (Off 4) true = Ok dataSize →
  hasFitTag buffer →
  let endOfData := u8 h + dataSize in
  reaches buffer endOfData (mkState (Off (u8 h)) ∅ []) st →
  offset st = Off off → off < endOfData →
  let recordHeader := toInt32 (byteAt buffer off) in
  Z.testbit recordHeader 7 = false → Z.testbit recordHeader 6 = false →
  definitions st !! Z.land recordHeader 0x0F = None →
  step buffer off st = Break
  ∧ parseFIT buffer = Some (Ok (messages st)).
Proof.
  intros Hh Hds Htag endOfData Hreach Ho Hlt recordHeader H7 H6 Hdef.
  assert (Hs : step buffer off st = Break).
  { unfold step. fold recordHeader. rewrite bit7, bit6, H7, H6. simpl.
    by rewrite Hdef. }
  split; [done|].
  rewrite (parseFIT_valid buffer h dataSize Hh Hds Htag).
  fold endOfData. unfold initState. rewrite (run_reaches _ _ _ _ Hreach).
  by rewrite (run_unfold _ _ _ _ Ho Hlt), Hs.
Qed.

(** C6. Compressed-timestamp records. For a record header byte with bit
    7 set, the local message type is bits 5-6 of the byte (a key from 0
    to 3); bits 0-4 play no part. Without a definition for the key the
    iteration consumes the header byte only and the loop goes on at the
    next byte. With a definition the iteration decodes one data message
    with it, appends it and goes on after it; an error of that decoding
    is the error of the loop. *)
Theorem compressed_timestamp_record
    (bytes : list byte) (endOfData : Z) (st : State) (off h : Z) :
  offset st = Off off → off < endOfData →
  byteAt bytes off = Some h → Z.testbit h 7 = true →
  let key := Z.land (Z.shiftr h 5) 0x3 in
  (0 ≤ key ≤ 3 ∧ Z.testbit key 0 = Z.testbit h 5 ∧ Z.testbit key 1 = Z.testbit h 6)
  ∧ (definitions st !! key = None →
       let st' := mkState (Off (off + 1)) (definitions st) (messages st) in
       step bytes off st = Next st'
       ∧ run bytes endOfData st = run bytes endOfData st')
  ∧ (∀ def, definitions st !! key = Some def →
       (∀ msg o', readDataMessage bytes def (Off (off + 1)) = Ok (msg, o') →
          let st' := mkState o' (definitions st) (messages st ++ [msg]) in
          step bytes off st = Next st'
          ∧ run bytes endOfData st = run bytes endOfData st')
       ∧ (∀ e, readDataMessage bytes def (Off (off + 1)) = Throw e →
          step bytes off st = Raise e
          ∧ run bytes endOfData st = Some (Throw e))).
Proof.
  intros Ho Hlt Hh H7 key.
  assert (Hstep : step bytes off st =
            match definitions st !! key with
            | Some def =>
                match readDataMessage bytes def (Off (off + 1)) with
                | Ok (msg, off') => Next (mkState off' (definitions st) (messages st ++ [msg]))
                | Throw e => Raise e
                end
            | None => Next (mkState (Off (off + 1)) (definitions st) (messages st))
            end).
  { unfold step. rewrite Hh. simpl toInt32. by rewrite bit7, H7. }
  split; [|split].
  - unfold key. change 0x3 with (Z.ones 2). rewrite Z.land_ones by lia.
    split.
    { pose proof (Z.mod_pos_bound (Z.shiftr h 5) (2 ^ 2) eq_refl) as Hb.
      change (2 ^ 2) with 4 in *. change (Z.ones 2) with 3. lia. }
    rewrite !Z.mod_pow2_bits_low by lia. rewrite !Z.shiftr_spec by lia. done.
  - intros Hnone st'. rewrite Hnone in Hstep. split; [done|].
    by rewrite (run_unfold _ _ _ _ Ho Hlt), Hstep.
  - intros def Hdef. rewrite Hdef in Hstep. split.
    + intros msg o' Hr st'. rewrite Hr in Hstep. split; [done|].
      by rewrite (run_unfold _ _ _ _ Ho Hlt), Hstep.
    + intros e Hr. rewrite Hr in Hstep. split; [done|].
      by rewrite (run_unfold _ _ _ _ Ho Hlt), Hstep.
Qed.

(** A definition, one record, then a data header for local type 1,
    which was never defined; the record behind it is not decoded. *)
Lemma data_record_without_definition_witness :
  let buf := bytes_of (fitHeader 31
               ++ [0x40; 0; 0; 20; 0; 2; 253; 4; 0x86; 92; 4; 0x86]
               ++ [0x00; 0xE8; 3; 0; 0; 0x88; 0x13; 0; 0]
               ++ [0x01]
               ++ [0x00; 0xE9; 3; 0; 0; 0xA0; 0x0F; 0; 0]) in
  let decoded := [message 20 [(253, VNum 1000); (92, VNum 5000)]] in
  let st := mkState (Off 35) {[ 0 := recordDef ]} decoded in
  reaches buf 45 (mkState (Off 14) ∅ []) st
  ∧ toInt32 (byteAt buf 35) = 1
  ∧ definitions st !! 1 = None
  ∧ step buf 35 st = Break
  ∧ parseFIT buf = Some (Ok decoded).
Proof.
  intros buf decoded st.
  assert (Hreach : reaches buf 45 (mkState (Off 14) ∅ []) st).
  { eapply (reaches_next buf 45 _ 14); [reflexivity | lia | vm_compute; reflexivity |].
    eapply (reaches_next buf 45 _ 26); [reflexivity | lia | vm_compute; reflexivity |].
    apply reaches_here. }
  split; [exact Hreach|]. split; [reflexivity|]. split; [reflexivity|].
  exact (data_record_without_definition buf x0e 31 st 35
           eq_refl eq_refl (conj eq_refl (conj eq_refl (conj eq_refl eq_refl)))
           Hreach eq_refl eq_refl eq_refl eq_refl eq_refl).
Defined.

(** Header [0xA3] (key 1, not defined) is skipped; header [0x85] (key 0,
    time offset 5) decodes one record with the definition of key 0. *)
Lemma compressed_timestamp_record_witness :
  let bytes := bytes_of [0xA3; 0x85; 0xE8; 3; 0; 0; 0x88; 0x13; 0; 0] in
  let defs : gmap Z MesgDef := {[ 0 := recordDef ]} in
  let msg := message 20 [(253, VNum 1000); (92, VNum 5000)] in
  (Z.land (Z.shiftr 0xA3 5) 3 = 1
   ∧ step bytes 0 (mkState (Off 0) defs []) = Next (mkState (Off 1) defs [])
   ∧ run bytes 10 (mkState (Off 0) defs []) = run bytes 10 (mkState (Off 1) defs []))
  ∧ (Z.land (Z.shiftr 0x85 5) 3 = 0
     ∧ readDataMessage bytes recordDef (Off 2) = Ok (msg, Off 10)
     ∧ step bytes 1 (mkState (Off 1) defs []) = Next (mkState (Off 10) defs [msg])
     ∧ run bytes 10 (mkState (Off 1) defs []) = run bytes 10 (mkState (Off 10) defs [msg])).
Proof.
  intros bytes defs msg. split.
  - split; [reflexivity|].
    exact (proj1 (proj2 (compressed_timestamp_record bytes 10 (mkState (Off 0) defs []) 0 0xA3
                           eq_refl eq_refl eq_refl eq_refl)) eq_refl).
  - split; [reflexivity|]. split; [reflexivity|].
    exact (proj1 (proj2 (proj2 (compressed_timestamp_record bytes 10 (mkState (Off 1) defs [])
                                  1 0x85 eq_refl eq_refl eq_refl eq_refl))
                   recordDef eq_refl) msg (Off 10) eq_refl).
Defined.

(** ** Extraction *)

Section ExtractionProperties.

Context (StringToNumber : string → float).

(** The dive built when there is at least one record. *)
Lemma extractDive_records messages first rest :
  filter isRecord messages = first :: rest →
  let firstTs := prop (props first) F_TIMESTAMP in
  let session := firstOrEmpty (filter isSession messages) in
  let summary := firstOrEmpty (filter isDiveSummary messages) in
  let samples := backfill (buildSample StringToNumber firstTs <$> first :: rest) in
  let temps := List.filter (fun t => negb (nullish t)) (temperature <$> samples) in
  ∃ lastSample,
    last samples = Some lastSample
    ∧ extractDive StringToNumber messages =
        Ok (mkDive
              (garminTimestampToDate StringToNumber (jsOr (prop session SF_START_TIME) firstTs))
              (if truthy (prop session SF_TOTAL_ELAPSED_TIME)
               then scale1000 StringToNumber (prop session SF_TOTAL_ELAPSED_TIME)
               else elapsed lastSample)
              (if truthy (prop summary DS_MAX_DEPTH)
               then scale1000 StringToNumber (prop summary DS_MAX_DEPTH)
               else mathMax (depthOrZero <$> samples))
              (if truthy (prop summary DS_AVG_DEPTH)
               then Some (scale1000 StringToNumber (prop summary DS_AVG_DEPTH))
               else None)
              (if (0 <? length temps)%nat then Some (mathMin (toNumber StringToNumber <$> temps)) else None)
              (if (0 <? length temps)%nat then Some (mathMax (toNumber StringToNumber <$> temps)) else None)
              samples).
Proof.
  intros Hrec firstTs session summary samples temps.
  destruct (last samples) as [lastSample|] eqn:Hlast.
  - exists lastSample. split; [done|].
    unfold extractDive.
    fold isRecord isSession isDiveSummary. rewrite Hrec.
    fold firstTs session summary samples. rewrite Hlast.
    by destruct (truthy (prop session SF_TOTAL_ELAPSED_TIME)).
  - apply last_None in Hlast. apply (f_equal length) in Hlast.
    unfold samples in Hlast. rewrite backfill_length, length_fmap in Hlast. done.
Qed.

Lemma extractDive_no_records messages :
  filter isRecord messages = [] →
  extractDive StringToNumber messages = Throw NoRecordsError.
Proof. intros H. unfold extractDive. fold isRecord. by rewrite H. Qed.

(** C3. The "no records" error. Extraction raises exactly when the
    message sequence has no message of global type 20, and the error is
    then [NoRecordsError]; with at least one record it returns a dive. A
    buffer that decodes without error to messages with no record among
    them therefore fails in the extraction stage, after decoding. *)
Theorem no_records_error (messages : list RawMessage) :
  ((∃ e, extractDive StringToNumber messages = Throw e) ↔ filter isRecord messages = [])
  ∧ (∀ e, extractDive StringToNumber messages = Throw e → e = NoRecordsError)
  ∧ (filter isRecord messages ≠ [] → ∃ dive, extractDive StringToNumber messages = Ok dive)
  ∧ (∀ buffer,
       parseFIT buffer = Some (Ok messages) →
       filter isRecord messages = [] →
       extractDiveFromBuffer StringToNumber buffer = Some (Throw NoRecordsError)).
Proof.
  pose proof (extractDive_no_records messages) as Hnone.
  assert (Hsome : filter isRecord messages ≠ [] → ∃ dive, extractDive StringToNumber messages = Ok dive).
  { destruct (filter isRecord messages) as [|first rest] eqn:Hrec; [done|]. intros _.
    destruct (extractDive_records messages first rest Hrec) as (lastSample & _ & ->). eauto. }
  split; [split|split; [|split]].
  - intros [e He]. destruct (filter isRecord messages) eqn:Hrec; [done|].
    destruct Hsome as [dive Hd]; [done|]. congruence.
  - intros H. rewrite Hnone by done. eauto.
  - intros e He. destruct (filter isRecord messages) eqn:Hrec.
    + rewrite Hnone in He by done. congruence.
    + destruct Hsome as [dive Hd]; [done|]. congruence.
  - done.
  - intros buffer Hp Hrec. unfold extractDiveFromBuffer. rewrite Hp.
    by rewrite Hnone.
Qed.

(** C7. Sample construction and scaling. With a non-empty record
    sequence the samples of the dive are the samples built from the
    records, in order, after the backfill pass. The sample built from a
    record has as elapsed time the record's timestamp minus the first
    record's, as depth the raw depth divided by 1000 when that is present
    and "no value" otherwise, as ascent rate the raw rate divided by 1000
    when that is present and "no value" otherwise, and the record's
    temperature, NDL and CNS as they are. In the dive the [i]-th sample
    still has these values (a rate that was absent may have been derived
    since). In particular a raw uint32 depth [v] other than the sentinel
    gives the depth [v / 1000]. *)
Theorem sample_construction (messages : list RawMessage) (first : RawMessage)
    (rest : list RawMessage) :
  filter isRecord messages = first :: rest →
  let firstTs := prop (props first) F_TIMESTAMP in
  let field (r : RawMessage) (k : Z) := prop (props r) k in
  (∀ r, let s := buildSample StringToNumber firstTs r in
     elapsed s = jsSub StringToNumber (field r F_TIMESTAMP) firstTs
     ∧ depth s = (if nullish (field r F_DEPTH) then None
                  else Some (scale1000 StringToNumber (field r F_DEPTH)))
     ∧ ascentRate s = (if nullish (field r F_ASCENT_RATE) then None
                       else Some (scale1000 StringToNumber (field r F_ASCENT_RATE)))
     ∧ temperature s = field r F_TEMPERATURE
     ∧ ndl s = field r F_NDL
     ∧ cns s = field r F_CNS)
  ∧ ∃ dive,
      extractDive StringToNumber messages = Ok dive
      ∧ samples dive = backfill (buildSample StringToNumber firstTs <$> first :: rest)
      ∧ length (samples dive) = length (first :: rest)
      ∧ ∀ i r, (first :: rest) !! i = Some r →
          ∃ s, samples dive !! i = Some s
            ∧ elapsed s = jsSub StringToNumber (field r F_TIMESTAMP) firstTs
            ∧ depth s = (if nullish (field r F_DEPTH) then None
                         else Some (scale1000 StringToNumber (field r F_DEPTH)))
            ∧ (nullish (field r F_ASCENT_RATE) = false →
               ascentRate s = Some (scale1000 StringToNumber (field r F_ASCENT_RATE)))
            ∧ temperature s = field r F_TEMPERATURE
            ∧ ndl s = field r F_NDL
            ∧ cns s = field r F_CNS
            ∧ (∀ v, field r F_DEPTH = orNull 0xFFFFFFFF v → v ≠ 0xFFFFFFFF →
               depth s = Some (PrimFloat.div (num_of_Z v) 1000)).
Proof.
  intros Hrec firstTs field.
  assert (Hbuild : ∀ r, let s := buildSample StringToNumber firstTs r in
     elapsed s = jsSub StringToNumber (field r F_TIMESTAMP) firstTs
     ∧ depth s = (if nullish (field r F_DEPTH) then None
                  else Some (scale1000 StringToNumber (field r F_DEPTH)))
     ∧ ascentRate s = (if nullish (field r F_ASCENT_RATE) then None
                       else Some (scale1000 StringToNumber (field r F_ASCENT_RATE)))
     ∧ temperature s = field r F_TEMPERATURE
     ∧ ndl s = field r F_NDL
     ∧ cns s = field r F_CNS).
  { intros r. unfold buildSample, field. simpl. repeat split.
    - by destruct (nullish (prop (props r) F_DEPTH)).
    - by destruct (nullish (prop (props r) F_ASCENT_RATE)). }
  split; [exact Hbuild|].
  destruct (extractDive_records messages first rest Hrec) as (lastSample & _ & ->).
  fold firstTs. set (build := buildSample StringToNumber firstTs).
  eexists. split; [done|].
  change (samples (mkDive ?a ?b ?c ?d ?e ?f ?g)) with g.
  split; [done|].
  split; [by rewrite backfill_length, length_fmap|].
  intros i r Hr.
  assert (Hb : (build <$> first :: rest) !! i = Some (build r)).
  { by rewrite list_lookup_fmap, Hr. }
  destruct (backfill_keeps (build <$> first :: rest) i _ Hb)
    as (s & Hs & He & Hd & Ht & Hn & Hc & Ha & _).
  destruct (Hbuild r) as (Be & Bd & Ba & Bt & Bn & Bc). fold build in Be, Bd, Ba, Bt, Bn, Bc.
  exists s. split; [done|].
  rewrite He, Hd, Ht, Hn, Hc, Be, Bd, Bt, Bn, Bc.
  repeat split.
  - intros Hp. rewrite Hp in Ba. rewrite Ha; [done | by rewrite Ba].
  - intros v Hv Hne. rewrite Hv. unfold orNull.
    rewrite (proj2 (Z.eqb_neq _ _) Hne). done.
Qed.

(** ToBoolean of a field value: false for a missing or [null] value,
    for the numbers 0 and NaN and for the empty text. *)
Lemma truthy_spec v :
  truthy v = true ↔
    (∃ x, v = VNum x ∧ PrimFloat.is_zero x = false ∧ PrimFloat.is_nan x = false)
    ∨ (∃ s, v = VStr s ∧ s ≠ EmptyString).
Proof.
  destruct v as [| |x|s]; simpl.
  - split; [done | intros [(? & ? & _)|(? & ? & _)]; done].
  - split; [done | intros [(? & ? & _)|(? & ? & _)]; done].
  - unfold num_truthy. rewrite negb_true_iff, orb_false_iff. split.
    + intros [? ?]. left. eauto.
    + intros [(y & Hy & ? & ?)|(? & ? & _)]; [by simplify_eq | done].
  - rewrite negb_true_iff. split.
    + intros H. right. exists s. split; [done|]. by apply String.eqb_neq.
    + intros [(? & ? & _)|(s' & Hs & Hne)]; [done|]. simplify_eq. by apply String.eqb_neq.
Qed.

Lemma truthy_nullish v : nullish v = true → truthy v = false.
Proof. by destruct v. Qed.

(** C8 (amended). The aggregation ladder. The total time is the first
    session's total-elapsed-time field divided by 1000 when that field is
    truthy (present and neither 0, NaN nor empty text), and the last
    sample's elapsed time otherwise. The maximum depth is the first
    summary's max-depth field divided by 1000 when truthy, and otherwise
    the maximum over the samples of the depth, a depth that is absent
    (or 0 or NaN) counting as 0. The average depth is the summary's
    avg-depth field divided by 1000 when truthy and "no value" otherwise;
    it is never computed from the samples. *)
Theorem aggregation_ladder (messages : list RawMessage) (dive : Dive) :
  extractDive StringToNumber messages = Ok dive →
  let session := firstOrEmpty (filter isSession messages) in
  let summary := firstOrEmpty (filter isDiveSummary messages) in
  let total := prop session SF_TOTAL_ELAPSED_TIME in
  let maxd := prop summary DS_MAX_DEPTH in
  let avgd := prop summary DS_AVG_DEPTH in
  (truthy total = true → totalTime dive = scale1000 StringToNumber total)
  ∧ (truthy total = false →
     ∃ s, last (samples dive) = Some s ∧ totalTime dive = elapsed s)
  ∧ (truthy maxd = true → maxDepth dive = scale1000 StringToNumber maxd)
  ∧ (truthy maxd = false → maxDepth dive = mathMax (depthOrZero <$> samples dive))
  ∧ (truthy avgd = true → avgDepth dive = Some (scale1000 StringToNumber avgd))
  ∧ (truthy avgd = false → avgDepth dive = None).
Proof.
  intros Hd session summary total maxd avgd.
  destruct (filter isRecord messages) as [|first rest] eqn:Hrec.
  { apply extractDive_no_records in Hrec. congruence. }
  destruct (extractDive_records messages first rest Hrec) as (lastSample & Hlast & He).
  rewrite He in Hd. injection Hd as <-.
  cbn [totalTime maxDepth avgDepth samples].
  fold session summary in Hlast |- *. fold total maxd avgd.
  repeat split; intros Ht; rewrite ?Ht; try done.
  by exists lastSample.
Qed.

(** C9 (amended). Timestamp conversion and start date. A timestamp
    that is a number other than 0 and NaN converts to the date at
    [(t + 631065600) * 1000] milliseconds, that is [t + 631065600]
    seconds; a timestamp that is text other than the empty text converts
    to the date at 1000 times the number that the text followed by the
    digits [631065600] denotes; every other timestamp, that is 0, NaN,
    the empty text and an absent one ([undefined] or [null]), converts
    to "no value". The start date of a dive is the conversion of the
    first session's start-time field when that field is truthy, that is
    present and neither 0 nor NaN nor the empty text, and the conversion
    of the first record's timestamp otherwise: also when the start-time
    field is present with the value 0, NaN or the empty text. *)
Theorem garmin_epoch_start_date :
  (∀ t, num_truthy t = true →
     garminTimestampToDate StringToNumber (VNum t) =
       Some (NewDate (PrimFloat.mul (PrimFloat.add t 631065600) 1000)))
  ∧ garminTimestampToDate StringToNumber (VNum 0) = None
  ∧ garminTimestampToDate StringToNumber VUndefined = None
  ∧ garminTimestampToDate StringToNumber VNull = None
  ∧ garminTimestampToDate StringToNumber (VNum nan) = None
  ∧ garminTimestampToDate StringToNumber (VStr EmptyString) = None
  ∧ (∀ ts, truthy ts = false ↔ garminTimestampToDate StringToNumber ts = None)
  ∧ (∀ ts, truthy ts = false ↔
       ts = VUndefined ∨ ts = VNull ∨ ts = VStr EmptyString
       ∨ ∃ t, ts = VNum t ∧ (PrimFloat.is_zero t = true ∨ PrimFloat.is_nan t = true))
  ∧ (∀ s, s ≠ EmptyString →
       garminTimestampToDate StringToNumber (VStr s) =
         Some (NewDate (PrimFloat.mul (StringToNumber (s ++ "631065600")) 1000)))
  ∧ (∀ messages first rest dive,
       filter isRecord messages = first :: rest →
       extractDive StringToNumber messages = Ok dive →
       let start := prop (firstOrEmpty (filter isSession messages)) SF_START_TIME in
       let firstTs := prop (props first) F_TIMESTAMP in
       (truthy start = true → startDate dive = garminTimestampToDate StringToNumber start)
       ∧ (truthy start = false →
          startDate dive = garminTimestampToDate StringToNumber firstTs)).
Proof.
  split; [|split; [|split; [|split; [|split; [|split; [|split; [|split; [|split]]]]]]]];
    try done.
  - intros t Ht. unfold garminTimestampToDate. simpl. by rewrite Ht.
  - intros ts. unfold garminTimestampToDate. by destruct (truthy ts).
  - intros ts. destruct ts as [| |t|s]; simpl.
    + split; [by left | done].
    + split; [by right; left | done].
    + unfold num_truthy. rewrite negb_false_iff, orb_true_iff. split.
      * intros H. right. right. right. by exists t.
      * intros [H|[H|[H|(t' & Ht' & H)]]]; [done..|]. by simplify_eq.
    + rewrite negb_false_iff. split.
      * intros H. apply String.eqb_eq in H. subst s. right. right. by left.
      * intros [H|[H|[H|(t' & Ht' & _)]]]; [done | done | | done].
        simplify_eq. done.
  - intros s Hs. unfold garminTimestampToDate. simpl.
    by rewrite (proj2 (String.eqb_neq s EmptyString) Hs).
  - intros messages first rest dive Hrec Hd start firstTs.
    destruct (extractDive_records messages first rest Hrec) as (lastSample & _ & He).
    rewrite He in Hd. injection Hd as <-.
    cbn [startDate]. fold start firstTs. unfold jsOr.
    split; intros Ht; by rewrite Ht.
Qed.

End ExtractionProperties.

(** ** Worked inputs *)

Example scenarioA_decodes : parseFIT scenarioA = Some (Ok recordsA).
Proof. vm_compute. reflexivity. Qed.

Example scenarioA_dive :
  extractDiveFromBuffer noText scenarioA =
    Some (Ok (mkDive (Some (NewDate 631066600000)) 1 5 None None None
                [sample 0 (Some 5%float) None; sample 1 (Some 4%float) (Some 1%float)])).
Proof. vm_compute. reflexivity. Qed.

Lemma no_records_error_witness :
  (parseFIT scenarioC = Some (Ok [sessionC])
   ∧ filter isRecord [sessionC] = []
   ∧ extractDiveFromBuffer noText scenarioC = Some (Throw NoRecordsError))
  ∧ (filter isRecord recordsA ≠ [] ∧ ∃ dive, extractDive noText recordsA = Ok dive).
Proof.
  assert (Hp : parseFIT scenarioC = Some (Ok [sessionC])) by (vm_compute; reflexivity).
  assert (Hf : filter isRecord [sessionC] = []) by reflexivity.
  assert (Hr : filter isRecord recordsA ≠ []) by (vm_compute; discriminate).
  split.
  - split; [exact Hp|]. split; [exact Hf|].
    exact (proj2 (proj2 (proj2 (no_records_error noText [sessionC]))) scenarioC Hp Hf).
  - split; [exact Hr|].
    exact (proj1 (proj2 (proj2 (no_records_error noText recordsA))) Hr).
Defined.

Lemma sample_construction_witness :
  filter isRecord [sessionC; recordB1; recordB2] = [recordB1; recordB2]
  ∧ ∃ dive,
      extractDive noText [sessionC; recordB1; recordB2] = Ok dive
      ∧ samples dive =
          [mkSample 0 (Some 5%float) (Some (-0.25)%float) (VNum 21) VUndefined VUndefined;
           mkSample 10 None None VNull (VNum 99) (VNum 3)]
      ∧ length (samples dive) = 2%nat.
Proof.
  split; [reflexivity|].
  destruct (sample_construction noText [sessionC; recordB1; recordB2] recordB1 [recordB2] eq_refl)
    as (_ & dive & Hd & Hs & Hlen & _).
  exists dive. split; [exact Hd|]. split; [|exact Hlen].
  rewrite Hs. vm_compute. reflexivity.
Defined.

Lemma aggregation_ladder_witness :
  ∃ dive,
    extractDive noText [sessionC; summaryD; recordB1; recordB2] = Ok dive
    ∧ totalTime dive = 60%float ∧ maxDepth dive = 9%float
    ∧ avgDepth dive = Some 4.5%float.
Proof.
  destruct (extractDive noText [sessionC; summaryD; recordB1; recordB2]) as [dive|e] eqn:Hd.
  - exists dive. split; [done|].
    destruct (aggregation_ladder noText _ dive Hd) as (Ht & _ & Hm & _ & Ha & _).
    rewrite Ht, Hm, Ha by reflexivity. repeat split; reflexivity.
  - vm_compute in Hd. discriminate.
Defined.

Lemma garmin_epoch_start_date_witness :
  (num_truthy 1000 = true
   ∧ garminTimestampToDate noText (VNum 1000) = Some (NewDate 631066600000))
  ∧ (∃ dive, extractDive noText [sessionE; recordB1; recordB2] = Ok dive
       ∧ startDate dive = Some (NewDate 631066500000))
  ∧ (∃ dive, extractDive noText recordsA = Ok dive
       ∧ startDate dive = Some (NewDate 631066600000))
  ∧ (∃ dive, extractDive noText [sessionNaN; recordZ1; recordZ2] = Ok dive
       ∧ startDate dive = Some (NewDate 631066600000))
  ∧ (∃ dive, extractDive noText [sessionEmptyText; recordZ1; recordZ2] = Ok dive
       ∧ startDate dive = Some (NewDate 631066600000)).
Proof.
  pose proof (garmin_epoch_start_date noText)
    as (Hconv & _ & _ & _ & _ & _ & _ & _ & _ & Hstart).
  split; [|split; [|split; [|split]]].
  - split; [reflexivity|]. exact (Hconv 1000%float eq_refl).
  - destruct (extractDive noText [sessionE; recordB1; recordB2]) as [dive|e] eqn:Hd.
    + exists dive. split; [done|].
      destruct (Hstart [sessionE; recordB1; recordB2] recordB1 [recordB2] dive eq_refl Hd)
        as [Ht _].
      rewrite Ht by reflexivity. reflexivity.
    + vm_compute in Hd. discriminate.
  - destruct (extractDive noText recordsA) as [dive|e] eqn:Hd.
    + exists dive. split; [done|].
      destruct (Hstart recordsA _ _ dive eq_refl Hd) as [_ Hf].
      rewrite Hf by reflexivity. reflexivity.
    + vm_compute in Hd. discriminate.
  - destruct (extractDive noText [sessionNaN; recordZ1; recordZ2]) as [dive|e] eqn:Hd.
    + exists dive. split; [done|].
      destruct (Hstart [sessionNaN; recordZ1; recordZ2] recordZ1 [recordZ2] dive eq_refl Hd)
        as [_ Hf].
      rewrite Hf by reflexivity. reflexivity.
    + vm_compute in Hd. discriminate.
  - destruct (extractDive noText [sessionEmptyText; recordZ1; recordZ2])
      as [dive|e] eqn:Hd.
    + exists dive. split; [done|].
      destruct (Hstart [sessionEmptyText; recordZ1; recordZ2] recordZ1 [recordZ2] dive
                  eq_refl Hd) as [_ Hf].
      rewrite Hf by reflexivity. reflexivity.
    + vm_compute in Hd. discriminate.
Defined.

(** Two closed numbers are told apart by comparing both with one of
    them. *)
Ltac floats_differ :=
  let H := fresh in
  intros H;
  match type of H with
  | ?x = ?y => apply (f_equal (fun z => PrimFloat.eqb z y)) in H
  | Some ?x = Some ?y =>
      apply (f_equal (fun o => match o with Some z => PrimFloat.eqb z y | None => false end)) in H
  end;
  vm_compute in H; discriminate H.

(** The total elapsed time, the maximum depth and the average depth of
    [messagesZero] are present (0), yet the dive has the values derived
    from the samples: 10 s, 7 m and no average, not 0/1000. *)
Lemma aggregation_zero_fields :
  let session := firstOrEmpty (filter isSession messagesZero) in
  let summary := firstOrEmpty (filter isDiveSummary messagesZero) in
  nullish (prop session SF_TOTAL_ELAPSED_TIME) = false
  ∧ nullish (prop summary DS_MAX_DEPTH) = false
  ∧ nullish (prop summary DS_AVG_DEPTH) = false
  ∧ ∃ dive,
      extractDive noText messagesZero = Ok dive
      ∧ totalTime dive ≠ scale1000 noText (prop session SF_TOTAL_ELAPSED_TIME)
      ∧ maxDepth dive ≠ scale1000 noText (prop summary DS_MAX_DEPTH)
      ∧ avgDepth dive ≠ Some (scale1000 noText (prop summary DS_AVG_DEPTH)).
Proof.
  intros session summary. repeat split; try reflexivity.
  eexists. split; [vm_compute; reflexivity|].
  repeat split; vm_compute; try floats_differ. discriminate.
Qed.

(** The start time of [sessionZero] is present (0); its conversion is
    "no value", yet the dive's start date is that of the first record. *)
Lemma start_time_zero :
  let start := prop (firstOrEmpty (filter isSession messagesZero)) SF_START_TIME in
  nullish start = false
  ∧ garminTimestampToDate noText start = None
  ∧ ∃ dive,
      extractDive noText messagesZero = Ok dive
      ∧ startDate dive = Some (NewDate 631066600000)
      ∧ startDate dive ≠ garminTimestampToDate noText start.
Proof.
  intros start. repeat split; try reflexivity.
  eexists. split; [vm_compute; reflexivity|].
  split; [reflexivity | vm_compute; discriminate].
Qed.

(** * Further properties *)

(** ** The order of numbers *)

Ltac sf_cases a := destruct a as [[]|[]| |[] ? ?].

Lemma SFcompare_trans a b c :
  (SFcompare a b = Some Lt ∨ SFcompare a b = Some Eq) →
  (SFcompare b c = Some Lt ∨ SFcompare b c = Some Eq) →
  (SFcompare a c = Some Lt ∨ SFcompare a c = Some Eq)
  ∧ (SFcompare a b = Some Lt ∨ SFcompare b c = Some Lt → SFcompare a c = Some Lt).
Proof.
  sf_cases a; sf_cases b; sf_cases c; simpl;
    try (intros [?|?] [?|?]; done);
    try (intros _ _; split; [by (left + right)|intros [?|?]; done]).
  all: change (PosDef.Pos.compare_cont Eq ?x ?y) with (Pos.compare x y) in *.
  all: destruct (Z.compare_spec e e0), (Z.compare_spec e0 e1), (Z.compare_spec e e1);
         try lia; subst;
         try destruct (Pos.compare_spec m m0); try destruct (Pos.compare_spec m0 m1);
         try destruct (Pos.compare_spec m m1); simpl;
         try lia; subst;
         intros [?|?] [?|?]; try done; (split; [by (left + right)|intros [?|?]; done]).
Qed.

Lemma SFcompare_antisym a b : SFcompare b a = CompOpp <$> SFcompare a b.
Proof.
  sf_cases a; sf_cases b; simpl; try done.
  all: change (PosDef.Pos.compare_cont Eq ?x ?y) with (Pos.compare x y) in *.
  all: rewrite (Z.compare_antisym e e0), (Pos.compare_antisym m m0);
       destruct (e ?= e0); simpl; try done; by destruct (m ?= m0)%positive.
Qed.

Lemma SFcompare_refl a : a ≠ S754_nan → SFcompare a a = Some Eq.
Proof.
  sf_cases a; simpl; try done.
  all: change (PosDef.Pos.compare_cont Eq ?x ?y) with (Pos.compare x y) in *.
  all: by rewrite Z.compare_refl, Pos.compare_refl.
Qed.

Lemma is_nan_spec x : PrimFloat.is_nan x = true ↔ Prim2SF x = S754_nan.
Proof.
  unfold PrimFloat.is_nan. rewrite FloatAxioms.eqb_spec. unfold SFeqb. split.
  - intros H. destruct (Prim2SF x) eqn:Hx; try done;
      by rewrite SFcompare_refl in H.
  - by intros ->.
Qed.

Lemma not_nan_spec x : PrimFloat.is_nan x = false ↔ Prim2SF x ≠ S754_nan.
Proof.
  rewrite <- is_nan_spec. by destruct (PrimFloat.is_nan x).
Qed.

Lemma fle_cmp x y :
  fle x y ↔ SFcompare (Prim2SF x) (Prim2SF y) = Some Lt
            ∨ SFcompare (Prim2SF x) (Prim2SF y) = Some Eq.
Proof.
  unfold fle. rewrite FloatAxioms.leb_spec. unfold SFleb.
  destruct (SFcompare _ _) as [[]|]; (split; [intros ?|intros [?|?]]); try done; auto.
Qed.

Lemma flt_cmp x y :
  PrimFloat.ltb x y = true ↔ SFcompare (Prim2SF x) (Prim2SF y) = Some Lt.
Proof.
  rewrite FloatAxioms.ltb_spec. unfold SFltb.
  by destruct (SFcompare _ _) as [[]|].
Qed.

Lemma fle_trans x y z : fle x y → fle y z → fle x z.
Proof.
  rewrite !fle_cmp. intros H1 H2. by apply (SFcompare_trans _ _ _ H1 H2).
Qed.

Lemma flt_fle_trans x y z : PrimFloat.ltb x y = true → fle y z → PrimFloat.ltb x z = true.
Proof.
  rewrite !flt_cmp, fle_cmp. intros H1 H2.
  apply (SFcompare_trans _ _ _ (or_introl H1) H2). by left.
Qed.

Lemma flt_fle x y : PrimFloat.ltb x y = true → fle x y.
Proof. rewrite flt_cmp, fle_cmp. by left. Qed.

Lemma fle_refl x : PrimFloat.is_nan x = false → fle x x.
Proof.
  rewrite not_nan_spec, fle_cmp. intros H. right. by apply SFcompare_refl.
Qed.

Lemma fle_not_nan x y : fle x y → PrimFloat.is_nan x = false ∧ PrimFloat.is_nan y = false.
Proof.
  rewrite fle_cmp, !not_nan_spec. intros H.
  split; intros Hn; rewrite Hn in H; destruct H as [H|H]; try done;
    by destruct (Prim2SF x).
Qed.

(** Of two numbers, one is not above the other. *)
Lemma not_flt_fle x y :
  PrimFloat.is_nan x = false → PrimFloat.is_nan y = false →
  PrimFloat.ltb x y = false → fle y x.
Proof.
  rewrite !not_nan_spec, fle_cmp. intros Hx Hy Hlt.
  assert (Hn : SFcompare (Prim2SF x) (Prim2SF y) ≠ Some Lt).
  { intros H. apply flt_cmp in H. congruence. }
  rewrite (SFcompare_antisym (Prim2SF x) (Prim2SF y)).
  destruct (SFcompare (Prim2SF x) (Prim2SF y)) as [[]|] eqn:Hc; simpl; auto; try done.
  destruct (Prim2SF x), (Prim2SF y); done.
Qed.

Lemma is_zero_spec x : PrimFloat.is_zero x = true ↔ ∃ s, Prim2SF x = S754_zero s.
Proof.
  unfold PrimFloat.is_zero. rewrite FloatAxioms.eqb_spec. unfold SFeqb.
  change (Prim2SF PrimFloat.zero) with (S754_zero false).
  destruct (Prim2SF x) as [s|[]| |[] ? ?]; simpl; (split; [intros ?|intros [? ?]]); try done; eauto.
Qed.

Lemma zeros_fle x y : PrimFloat.is_zero x = true → PrimFloat.is_zero y = true → fle x y.
Proof.
  rewrite !is_zero_spec, fle_cmp. intros [s ->] [t ->]. by right.
Qed.

Lemma fle_neg_infinity x : fle x neg_infinity → x = neg_infinity.
Proof.
  rewrite fle_cmp. change (Prim2SF neg_infinity) with (S754_infinity true).
  intros H. apply Prim2SF_inj. change (Prim2SF neg_infinity) with (S754_infinity true).
  destruct (Prim2SF x) as [[]|[]| |[] ? ?]; simpl in H; by destruct H.
Qed.

Lemma fle_infinity x : fle infinity x → x = infinity.
Proof.
  rewrite fle_cmp. change (Prim2SF infinity) with (S754_infinity false).
  intros H. apply Prim2SF_inj. change (Prim2SF infinity) with (S754_infinity false).
  destruct (Prim2SF x) as [[]|[]| |[] ? ?]; simpl in H; by destruct H.
Qed.

(** ** [Math.max] and [Math.min] *)

Lemma existsb_nan_cons x xs :
  existsb PrimFloat.is_nan (x :: xs) = false ↔
    PrimFloat.is_nan x = false ∧ existsb PrimFloat.is_nan xs = false.
Proof. simpl. apply orb_false_iff. Qed.

Lemma fold_max_spec xs h :
  PrimFloat.is_nan h = false → existsb PrimFloat.is_nan xs = false →
  let r := fold_left (fun highest x =>
             if isPosZero x && isNegZero highest then x
             else if PrimFloat.ltb highest x then x else highest) xs h in
  fle h r ∧ (∀ x, x ∈ xs → fle x r) ∧ (r = h ∨ r ∈ xs).
Proof.
  revert h. induction xs as [|x xs IH]; intros h Hh Hxs; simpl.
  - split; [by apply fle_refl|]. split; [|by left]. intros x Hx. by apply elem_of_nil in Hx.
  - apply existsb_nan_cons in Hxs as [Hx Hxs].
    set (h' := if isPosZero x && isNegZero h then x
               else if PrimFloat.ltb h x then x else h).
    assert (Hstep : fle h h' ∧ fle x h' ∧ (h' = h ∨ h' = x)).
    { unfold h'. destruct (isPosZero x && isNegZero h) eqn:Hz.
      - apply andb_true_iff in Hz as [Hzx Hzh].
        apply andb_true_iff in Hzx as [Hzx _]. apply andb_true_iff in Hzh as [Hzh _].
        split; [by apply zeros_fle|]. split; [by apply fle_refl | by right].
      - destruct (PrimFloat.ltb h x) eqn:Hlt.
        + split; [by apply flt_fle|]. split; [by apply fle_refl | by right].
        + split; [by apply fle_refl|]. split; [by apply not_flt_fle | by left]. }
    destruct Hstep as (Hhh' & Hxh' & Hh').
    destruct (IH h') as (H1 & H2 & H3); [by apply (fle_not_nan _ _ Hhh') | done |].
    split; [by eapply fle_trans|]. split.
    + intros y Hy. apply elem_of_cons in Hy as [->|Hy]; [by eapply fle_trans | by apply H2].
    + destruct H3 as [->|H3]; [|right; by apply elem_of_cons; right].
      destruct Hh' as [->| ->]; [by left | right; by apply elem_of_cons; left].
Qed.

Lemma fold_min_spec xs h :
  PrimFloat.is_nan h = false → existsb PrimFloat.is_nan xs = false →
  let r := fold_left (fun lowest x =>
             if isNegZero x && isPosZero lowest then x
             else if PrimFloat.ltb x lowest then x else lowest) xs h in
  fle r h ∧ (∀ x, x ∈ xs → fle r x) ∧ (r = h ∨ r ∈ xs).
Proof.
  revert h. induction xs as [|x xs IH]; intros h Hh Hxs; simpl.
  - split; [by apply fle_refl|]. split; [|by left]. intros x Hx. by apply elem_of_nil in Hx.
  - apply existsb_nan_cons in Hxs as [Hx Hxs].
    set (h' := if isNegZero x && isPosZero h then x
               else if PrimFloat.ltb x h then x else h).
    assert (Hstep : fle h' h ∧ fle h' x ∧ (h' = h ∨ h' = x)).
    { unfold h'. destruct (isNegZero x && isPosZero h) eqn:Hz.
      - apply andb_true_iff in Hz as [Hzx Hzh].
        apply andb_true_iff in Hzx as [Hzx _]. apply andb_true_iff in Hzh as [Hzh _].
        split; [by apply zeros_fle|]. split; [by apply fle_refl | by right].
      - destruct (PrimFloat.ltb x h) eqn:Hlt.
        + split; [by apply flt_fle|]. split; [by apply fle_refl | by right].
        + split; [by apply fle_refl|]. split; [by apply not_flt_fle | by left]. }
    destruct Hstep as (Hhh' & Hxh' & Hh').
    destruct (IH h') as (H1 & H2 & H3); [by apply (fle_not_nan _ _ Hhh') | done |].
    split; [by eapply fle_trans|]. split.
    + intros y Hy. apply elem_of_cons in Hy as [->|Hy]; [by eapply fle_trans | by apply H2].
    + destruct H3 as [->|H3]; [|right; by apply elem_of_cons; right].
      destruct Hh' as [->| ->]; [by left | right; by apply elem_of_cons; left].
Qed.

(** [Math.max] of numbers none of which is NaN is one of them, and none
    of them is above it. *)
Lemma mathMax_greatest xs :
  existsb PrimFloat.is_nan xs = false → xs ≠ [] →
  mathMax xs ∈ xs ∧ ∀ x, x ∈ xs → fle x (mathMax xs).
Proof.
  intros Hn Hne. unfold mathMax. rewrite Hn.
  destruct (fold_max_spec xs neg_infinity eq_refl Hn) as (_ & Hup & Hin).
  split; [|done].
  destruct Hin as [Hin|Hin]; [|done].
  destruct xs as [|x xs]; [done|].
  assert (Hx : x = neg_infinity).
  { apply fle_neg_infinity. rewrite <- Hin. apply Hup. by apply elem_of_cons; left. }
  rewrite Hin, <- Hx. by apply elem_of_cons; left.
Qed.

Lemma mathMin_least xs :
  existsb PrimFloat.is_nan xs = false → xs ≠ [] →
  mathMin xs ∈ xs ∧ ∀ x, x ∈ xs → fle (mathMin xs) x.
Proof.
  intros Hn Hne. unfold mathMin. rewrite Hn.
  destruct (fold_min_spec xs infinity eq_refl Hn) as (_ & Hup & Hin).
  split; [|done].
  destruct Hin as [Hin|Hin]; [|done].
  destruct xs as [|x xs]; [done|].
  assert (Hx : x = infinity).
  { apply fle_infinity. rewrite <- Hin. apply Hup. by apply elem_of_cons; left. }
  rewrite Hin, <- Hx. by apply elem_of_cons; left.
Qed.

(** ** The decoder as a whole: termination, size and errors *)

(** An iteration leaves the messages as they are or appends one. *)
Lemma step_messages bytes off st st' :
  step bytes off st = Next st' →
  messages st' = messages st ∨ ∃ msg, messages st' = messages st ++ [msg].
Proof.
  unfold step.
  destruct (negb (Z.land _ 128 =? 0)).
  - destruct (definitions st !! _) as [def|].
    + destruct (readDataMessage _ _ _) as [[msg o']|e]; [|done].
      intros H. simplify_eq. simpl. eauto.
    + intros H. simplify_eq. by left.
  - destruct (negb (Z.land _ 64 =? 0)).
    + destruct (readDefinition _ _ _) as [[def o']|e]; [|done].
      intros H. simplify_eq. by left.
    + destruct (definitions st !! _) as [def|]; [|done].
      destruct (readDataMessage _ _ _) as [[msg o']|e]; [|done].
      intros H. simplify_eq. simpl. eauto.
Qed.

(** The result of the loop extends the messages of the state it is run
    from, by at most one message per byte left in the data section. *)
Lemma scan_extends bytes endOfData b st msgs :
  scan bytes endOfData b st = Some (Ok msgs) →
  ∃ more, msgs = messages st ++ more
          ∧ (length more ≤ budgetFor endOfData (offset st))%nat.
Proof.
  revert st. induction b as [|b IH]; intros st; simpl.
  - destruct (offset st) as [off|].
    + destruct (off <? endOfData); [done|]. intros H. simplify_eq.
      exists []. rewrite app_nil_r. split; [done | simpl; lia].
    + intros H. simplify_eq. exists []. rewrite app_nil_r. split; [done | simpl; lia].
  - destruct (offset st) as [off|] eqn:Ho.
    + destruct (off <? endOfData) eqn:Hlt.
      * apply Z.ltb_lt in Hlt.
        destruct (step bytes off st) as [st'| |e] eqn:Hs; [| |done].
        -- intros H. destruct (IH st' H) as (more & -> & Hlen).
           pose proof (budgetFor_step endOfData off _ Hlt (step_progress _ _ _ _ Hs)) as Hb.
           destruct (step_messages _ _ _ _ Hs) as [->|[msg ->]].
           ++ exists more. split; [done | simpl in *; lia].
           ++ exists (msg :: more). rewrite <- app_assoc. split; [done | simpl in *; lia].
        -- intros H. simplify_eq. exists []. rewrite app_nil_r. split; [done | simpl; lia].
      * intros H. simplify_eq. exists []. rewrite app_nil_r. split; [done | simpl; lia].
    + intros H. simplify_eq. exists []. rewrite app_nil_r. split; [done | simpl; lia].
Qed.

(** X1. Decoding always ends. The loop of [parseFIT] consumes at least
    one byte in every iteration, so for every buffer [parseFIT] comes to
    a result, and a message list it returns has at most as many
    messages as the header declares data bytes. *)
Theorem parseFIT_terminates (buffer : list byte) :
  ∃ r, parseFIT buffer = Some r
       ∧ ∀ msgs dataSize,
           r = Ok msgs → getUint32 buffer (Off 4) true = Ok dataSize →
           (length msgs ≤ Z.to_nat dataSize)%nat.
Proof.
  destruct (parseFIT_total buffer) as [r Hr]. exists r. split; [done|].
  intros msgs dataSize -> Hds. revert Hr. unfold parseFIT. rewrite Hds.
  destruct (getUint16 buffer (Off 2) true); [|done].
  destruct (negb _); [done|].
  intros H. apply scan_extends in H as (more & -> & Hlen).
  simpl in *. replace (default 0 (byteAt buffer 0) + dataSize - default 0 (byteAt buffer 0))
    with dataSize in Hlen by lia. done.
Qed.

Lemma getUint_throw w bytes o le e : getUint w bytes o le = Throw e → e = RangeError.
Proof.
  unfold getUint, view. destruct (_ && _); simpl; [done|]. intros H. by simplify_eq.
Qed.

Section Errors.

Context (StringToNumber : string → float).

(** X2. The errors of the pipeline. [parseFIT] raises nothing but the
    format error and the range error of a read outside the buffer;
    [extractDiveFromBuffer] raises these two or the "no records" error,
    and never a type error. *)
Theorem pipeline_errors (buffer : list byte) (e : error) :
  (parseFIT buffer = Some (Throw e) → e = FormatError ∨ e = RangeError)
  ∧ (extractDiveFromBuffer StringToNumber buffer = Some (Throw e) →
     e = FormatError ∨ e = RangeError ∨ e = NoRecordsError).
Proof.
  assert (Hparse : parseFIT buffer = Some (Throw e) → e = FormatError ∨ e = RangeError).
  { unfold parseFIT, getUint16, getUint32.
    destruct (getUint 2 buffer (Off 2) true) as [pv|e1] eqn:H1.
    - destruct (getUint 4 buffer (Off 4) true) as [ds|e2] eqn:H2.
      + destruct (negb _).
        * intros H. simplify_eq. by left.
        * intros H. apply scan_throw in H. by right.
      + intros H. simplify_eq. right. by eapply getUint_throw.
    - intros H. simplify_eq. right. by eapply getUint_throw. }
  split; [done|].
  unfold extractDiveFromBuffer.
  destruct (parseFIT buffer) as [[msgs|e1]|] eqn:Hp; [| |done].
  - intros H. simplify_eq. right. right.
    destruct (filter isRecord msgs) as [|first rest] eqn:Hrec.
    + rewrite (extractDive_no_records StringToNumber msgs Hrec) in H. by simplify_eq.
    + destruct (extractDive_records StringToNumber msgs first rest Hrec) as (? & _ & He).
      congruence.
  - intros H. simplify_eq. destruct (Hparse eq_refl) as [->| ->]; auto.
Qed.

(** X3. An empty data section. A buffer with the tag and a declared
    data size of 0 decodes to no message, whatever follows the header,
    and extraction then fails for want of records. *)
Theorem empty_data_section (buffer : list byte) (h : byte) :
  rawAt buffer 0 = Some h → getUint32 buffer (Off 4) true = Ok 0 → hasFitTag buffer →
  parseFIT buffer = Some (Ok [])
  ∧ extractDiveFromBuffer StringToNumber buffer = Some (Throw NoRecordsError).
Proof.
  intros Hh Hds Htag.
  assert (Hp : parseFIT buffer = Some (Ok [])).
  { rewrite (parseFIT_valid buffer h 0 Hh Hds Htag).
    apply run_done. right. exists (u8 h). split; [done | lia]. }
  split; [done|]. unfold extractDiveFromBuffer. by rewrite Hp.
Qed.

End Errors.

Lemma pipeline_errors_witness :
  parseFIT [] = Some (Throw RangeError)
  ∧ (RangeError = FormatError ∨ RangeError = RangeError)
  ∧ extractDiveFromBuffer noText scenarioC = Some (Throw NoRecordsError)
  ∧ (NoRecordsError = FormatError ∨ NoRecordsError = RangeError
     ∨ NoRecordsError = NoRecordsError).
Proof.
  assert (H1 : parseFIT [] = Some (Throw RangeError)) by reflexivity.
  assert (H2 : extractDiveFromBuffer noText scenarioC = Some (Throw NoRecordsError))
    by (vm_compute; reflexivity).
  split; [exact H1|]. split; [exact (proj1 (pipeline_errors noText [] RangeError) H1)|].
  split; [exact H2|]. exact (proj2 (pipeline_errors noText scenarioC NoRecordsError) H2).
Defined.

Lemma empty_data_section_witness :
  let buffer := bytes_of (fitHeader 0 ++ [0x40; 0; 0; 20; 0; 1; 253; 4; 0x86]) in
  rawAt buffer 0 = Some x0e
  ∧ getUint32 buffer (Off 4) true = Ok 0
  ∧ hasFitTag buffer
  ∧ parseFIT buffer = Some (Ok [])
  ∧ extractDiveFromBuffer noText buffer = Some (Throw NoRecordsError).
Proof.
  intros buffer.
  assert (Ht : hasFitTag buffer) by (repeat split).
  split; [reflexivity|]. split; [reflexivity|]. split; [exact Ht|].
  exact (empty_data_section noText buffer x0e eq_refl eq_refl Ht).
Defined.

Lemma parseFIT_terminates_witness :
  ∃ r, parseFIT scenarioA = Some r
       ∧ (r = Ok recordsA → getUint32 scenarioA (Off 4) true = Ok 30 →
          (length recordsA ≤ Z.to_nat 30)%nat).
Proof.
  destruct (parseFIT_terminates scenarioA) as (r & Hr & Hlen).
  exists r. split; [exact Hr|]. intros H1 H2. exact (Hlen recordsA 30 H1 H2).
Defined.

(** ** Values read by the getters *)

Lemma lor_shiftl_byte acc b :
  0 ≤ b < 256 → Z.lor (Z.shiftl acc 8) b = acc * 256 + b.
Proof.
  intros Hb. rewrite <- Z.add_nocarry_lor.
  - rewrite Z.shiftl_mul_pow2 by lia. reflexivity.
  - apply Z.bits_inj'. intros i Hi. rewrite Z.land_spec, Z.bits_0.
    destruct (decide (i < 8)) as [Hlt|Hge].
    + by rewrite Z.shiftl_spec_low.
    + rewrite andb_false_iff. right.
      rewrite <- (Z.mod_small b (2 ^ 8)) by (change (2 ^ 8) with 256; lia).
      apply Z.mod_pow2_bits_high. lia.
Qed.

Lemma be_value_range bs :
  Forall (fun b => 0 ≤ b < 256) bs → 0 ≤ be_value bs < 2 ^ (8 * Z.of_nat (length bs)).
Proof.
  unfold be_value.
  assert (Hgen : ∀ acc k, 0 ≤ k → 0 ≤ acc < 2 ^ (8 * k) →
            Forall (fun b => 0 ≤ b < 256) bs →
            0 ≤ fold_left (fun acc b => Z.lor (Z.shiftl acc 8) b) bs acc
              < 2 ^ (8 * (k + Z.of_nat (length bs)))).
  { induction bs as [|b bs IH]; intros acc k Hk Hacc Hall; simpl.
    - by rewrite Z.add_0_r.
    - apply Forall_cons in Hall as [Hb Hall].
      replace (k + Z.of_nat (S (length bs)))
        with ((k + 1) + Z.of_nat (length bs)) by lia.
      apply IH; [lia | | done].
      rewrite lor_shiftl_byte by done.
      replace (8 * (k + 1)) with (8 * k + 8) by lia.
      rewrite Z.pow_add_r by lia. change (2 ^ 8) with 256. nia. }
  intros Hall. apply (Hgen 0 0); [lia | simpl; lia | done].
Qed.

Lemma getUint_range w bytes o le v :
  getUint w bytes o le = Ok v → 0 ≤ v < 2 ^ (8 * Z.of_nat w).
Proof.
  unfold getUint, view. destruct (_ && _) eqn:Hin; simpl; [|done].
  intros H. simplify_eq.
  apply andb_true_iff in Hin as [H0 H1]. apply Z.leb_le in H0, H1.
  set (bs := u8 <$> take w (drop (Z.to_nat (toIndex o)) bytes)).
  assert (Hlen : length bs = w).
  { unfold bs. rewrite length_fmap, length_take, length_drop. lia. }
  assert (Hall : Forall (fun b => 0 ≤ b < 256) bs).
  { unfold bs. apply Forall_fmap, Forall_forall. intros b _. apply u8_range. }
  destruct le.
  - rewrite <- Hlen, <- length_reverse. apply be_value_range. by apply Forall_reverse.
  - rewrite <- Hlen. by apply be_value_range.
Qed.

Lemma getInt_range w bytes o le v :
  (0 < w)%nat → getInt w bytes o le = Ok v →
  - 2 ^ (8 * Z.of_nat w - 1) ≤ v < 2 ^ (8 * Z.of_nat w - 1).
Proof.
  intros Hw. unfold getInt.
  destruct (getUint w bytes o le) as [u|] eqn:Hu; simpl; [|done].
  intros H. simplify_eq. apply getUint_range in Hu.
  assert (Hp : 2 ^ (8 * Z.of_nat w) = 2 * 2 ^ (8 * Z.of_nat w - 1)).
  { rewrite <- Z.pow_succ_r by lia. f_equal. lia. }
  unfold to_signed. destruct (u <? _) eqn:Hlt.
  - apply Z.ltb_lt in Hlt. lia.
  - apply Z.ltb_ge in Hlt. lia.
Qed.

(** ** Definition records *)

Lemma readFieldDefs_spec bytes n off fs off' :
  readFieldDefs bytes n off = (fs, off') →
  off' = off + 3 * Z.of_nat n ∧ length fs = n
  ∧ ∀ i, (i < n)%nat →
      fs !! i = Some (mkFieldDef (rawAt bytes (off + 3 * Z.of_nat i))
                                 (rawAt bytes (off + 3 * Z.of_nat i + 1))
                                 (rawAt bytes (off + 3 * Z.of_nat i + 2))).
Proof.
  revert off fs off'. induction n as [|n IH]; intros off fs off'; simpl.
  - intros H. simplify_eq. split; [lia|]. split; [done|]. intros i Hi. lia.
  - destruct (readFieldDefs bytes n (off + 3)) as [rest o1] eqn:Hr.
    intros H. simplify_eq. destruct (IH _ _ _ Hr) as (-> & Hlen & Hget).
    split; [lia|]. split; [simpl; lia|]. intros [|i] Hi; simpl.
    + by rewrite Z.add_0_r.
    + rewrite Hget by lia. do 2 f_equal; f_equal; lia.
Qed.

Lemma readDevFieldDefs_spec bytes n off fs off' :
  readDevFieldDefs bytes n off = (fs, off') →
  off' = off + 3 * Z.of_nat n ∧ length fs = n
  ∧ ∀ i, (i < n)%nat →
      fs !! i = Some (mkDevFieldDef (rawAt bytes (off + 3 * Z.of_nat i))
                                    (rawAt bytes (off + 3 * Z.of_nat i + 1))
                                    (rawAt bytes (off + 3 * Z.of_nat i + 2))).
Proof.
  revert off fs off'. induction n as [|n IH]; intros off fs off'; simpl.
  - intros H. simplify_eq. split; [lia|]. split; [done|]. intros i Hi. lia.
  - destruct (readDevFieldDefs bytes n (off + 3)) as [rest o1] eqn:Hr.
    intros H. simplify_eq. destruct (IH _ _ _ Hr) as (-> & Hlen & Hget).
    split; [lia|]. split; [simpl; lia|]. intros [|i] Hi; simpl.
    + by rewrite Z.add_0_r.
    + rewrite Hget by lia. do 2 f_equal; f_equal; lia.
Qed.

Lemma bit5 h : (Z.land h 0x20 =? 0) = negb (Z.testbit h 5).
Proof. apply (land_pow2_eqb h 5). lia. Qed.

(** X4. Definition records. A record header with bit 7 clear and bit 6
    set stores a definition under its local message type (bits 0-3),
    replacing what was there, and produces no message. The definition
    has the global message number read at offset 3 of the record, in the
    byte order that the architecture byte selects (little-endian only
    for 0), and the [N] field descriptors that follow the count byte,
    three bytes each, in order. The cursor moves to the byte after the
    descriptors: [6 + 3N] bytes on, and [1 + 3M] more when bit 5
    announces [M] developer fields. *)
Theorem definition_record (bytes : list byte) (st : State) (off h g : Z) :
  byteAt bytes off = Some h → Z.testbit h 7 = false → Z.testbit h 6 = true →
  let le := bool_decide (byteAt bytes (off + 2) = Some 0) in
  getUint16 bytes (Off (off + 3)) le = Ok g →
  let n := loopCount (byteAt bytes (off + 5)) in
  let devOff := off + 6 + 3 * Z.of_nat n in
  let m := if Z.testbit h 5 then loopCount (byteAt bytes devOff) else 0%nat in
  let next := if Z.testbit h 5 then devOff + 1 + 3 * Z.of_nat m else devOff in
  ∃ def,
    step bytes off st =
      Next (mkState (Off next) (<[Z.land h 0x0F := def]> (definitions st)) (messages st))
    ∧ globalMesgNum def = g ∧ littleEndian def = le
    ∧ length (fields def) = n ∧ length (devFields def) = m
    ∧ (∀ i, (i < n)%nat →
         fields def !! i =
           Some (mkFieldDef (rawAt bytes (off + 6 + 3 * Z.of_nat i))
                            (rawAt bytes (off + 6 + 3 * Z.of_nat i + 1))
                            (rawAt bytes (off + 6 + 3 * Z.of_nat i + 2))))
    ∧ (∀ i, (i < m)%nat →
         devFields def !! i =
           Some (mkDevFieldDef (rawAt bytes (devOff + 1 + 3 * Z.of_nat i))
                               (rawAt bytes (devOff + 1 + 3 * Z.of_nat i + 1))
                               (rawAt bytes (devOff + 1 + 3 * Z.of_nat i + 2)))).
Proof.
  intros Hh H7 H6 le Hg n devOff m next. subst m next.
  unfold step. rewrite Hh. simpl toInt32. rewrite bit7, bit6, bit5, H7, H6.
  destruct (Z.testbit h 5) eqn:H5; simpl negb; cbv iota; unfold readDefinition;
    replace (off + 1 + 1) with (off + 2) by lia;
    replace (off + 2 + 1) with (off + 3) by lia; fold le; rewrite Hg; simpl mbind;
    replace (off + 3 + 2) with (off + 5) by lia;
    replace (off + 5 + 1) with (off + 6) by lia; fold n;
    destruct (readFieldDefs bytes n (off + 6)) as [fs o1] eqn:Hf;
    destruct (readFieldDefs_spec _ _ _ _ _ Hf) as (-> & Hlen & Hget); fold devOff.
  - destruct (readDevFieldDefs bytes _ (devOff + 1)) as [dfs o2] eqn:Hd.
    destruct (readDevFieldDefs_spec _ _ _ _ _ Hd) as (-> & Hdlen & Hdget).
    eexists. split; [reflexivity|]. simpl. repeat split; done.
  - eexists. split; [reflexivity|]. simpl. repeat split; try done.
    intros i Hi. lia.
Qed.

Lemma definition_record_witness :
  let bytes := bytes_of [0x61; 0; 1; 0; 20; 2; 253; 4; 0x86; 92; 4; 0x86; 1; 7; 2; 0] in
  let st := mkState (Off 0) ∅ [] in
  byteAt bytes 0 = Some 0x61
  ∧ getUint16 bytes (Off 3) false = Ok 20
  ∧ ∃ def,
      step bytes 0 st = Next (mkState (Off 16) (<[1 := def]> ∅) [])
      ∧ globalMesgNum def = 20 ∧ littleEndian def = false
      ∧ length (fields def) = 2%nat ∧ length (devFields def) = 1%nat.
Proof.
  intros bytes st. split; [reflexivity|]. split; [reflexivity|].
  destruct (definition_record bytes st 0 0x61 20 eq_refl eq_refl eq_refl eq_refl)
    as (def & Hs & Hg & Hl & Hn & Hm & _).
  exists def. split; [exact Hs|]. split; [exact Hg|]. split; [exact Hl|].
  split; [exact Hn | exact Hm].
Defined.

Lemma loopCount_byte bytes i : (loopCount (byteAt bytes i) ≤ 255)%nat.
Proof.
  unfold loopCount, byteAt. destruct (rawAt bytes i) as [b|]; simpl; [|lia].
  pose proof (u8_range b). lia.
Qed.

Lemma readDefinition_wellFormed bytes dev off def off' :
  readDefinition bytes dev off = Ok (def, off') → wellFormedDef def.
Proof.
  unfold readDefinition.
  destruct (getUint16 _ _ _) as [g|e] eqn:Hg; simpl; [|done].
  apply (getUint_range 2) in Hg.
  destruct (readFieldDefs _ _ _) as [fs o1] eqn:Hf.
  destruct (readFieldDefs_spec _ _ _ _ _ Hf) as (_ & Hlen & _).
  assert (Hfs : (length fs ≤ 255)%nat) by (rewrite Hlen; apply loopCount_byte).
  destruct dev.
  - destruct (readDevFieldDefs _ _ _) as [dfs o2] eqn:Hd.
    destruct (readDevFieldDefs_spec _ _ _ _ _ Hd) as (_ & Hdlen & _).
    intros H. simplify_eq. repeat split; simpl; try done; try lia.
    rewrite Hdlen. apply loopCount_byte.
  - intros H. simplify_eq. repeat split; simpl; try done; lia.
Qed.

Lemma step_table bytes off st st' :
  tableInvariant (definitions st) → step bytes off st = Next st' →
  tableInvariant (definitions st').
Proof.
  intros Hinv. unfold step.
  destruct (negb (Z.land _ 128 =? 0)).
  - destruct (definitions st !! _) as [def|].
    + destruct (readDataMessage _ _ _) as [[msg o']|e]; [|done].
      intros H. by simplify_eq.
    + intros H. by simplify_eq.
  - destruct (negb (Z.land _ 64 =? 0)).
    + destruct (readDefinition _ _ _) as [[def o']|e] eqn:Hr; [|done].
      intros H. simplify_eq. simpl. intros k d Hk.
      apply lookup_insert_Some in Hk as [[<- <-]|[_ Hk]]; [|by apply Hinv].
      split; [|by eapply readDefinition_wellFormed].
      change 15 with (Z.ones 4). rewrite Z.land_ones by lia.
      pose proof (Z.mod_pos_bound (toInt32 (byteAt bytes off)) (2 ^ 4) eq_refl) as Hb.
      change (2 ^ 4) with 16 in *. change (Z.ones 4) with 15. lia.
    + destruct (definitions st !! _) as [def|]; [|done].
      destruct (readDataMessage _ _ _) as [[msg o']|e]; [|done].
      intros H. by simplify_eq.
Qed.

Lemma table_size (defs : gmap Z MesgDef) : tableInvariant defs → (base.size defs ≤ 16)%nat.
Proof.
  intros Hinv. rewrite <- size_dom.
  assert (Hsub : dom defs ⊆ (list_to_set (seqZ 0 16) : gset Z)).
  { intros k Hk. apply elem_of_dom in Hk as [def Hk]. apply Hinv in Hk as [Hk _].
    apply elem_of_list_to_set, elem_of_seqZ. lia. }
  apply subseteq_size in Hsub. rewrite size_list_to_set in Hsub by apply NoDup_seqZ.
  by rewrite length_seqZ in Hsub.
Qed.

(** X5. The definition table. In every state that the loop of
    [parseFIT] reaches, the table holds definitions for local message
    types 0 to 15 only, hence at most 16 of them, and each definition
    has a 16-bit global message number and at most 255 field
    descriptors of either kind. *)
Theorem definition_table_bounded
    (bytes : list byte) (endOfData headerSize : Z) (st : State) :
  reaches bytes endOfData (mkState (Off headerSize) ∅ []) st →
  tableInvariant (definitions st) ∧ (base.size (definitions st) ≤ 16)%nat.
Proof.
  intros Hreach.
  assert (Hinv : tableInvariant (definitions st)).
  { assert (Hgen : ∀ s0 s1, reaches bytes endOfData s0 s1 →
              tableInvariant (definitions s0) → tableInvariant (definitions s1)).
    { induction 1 as [|s0 off s1 s2 Ho Hlt Hs _ IH]; [done|].
      intros H0. apply IH. by eapply step_table. }
    apply (Hgen _ _ Hreach). intros k def Hk. simpl in Hk. by apply lookup_empty_Some in Hk. }
  split; [done | by apply table_size].
Qed.

Lemma definition_table_bounded_witness :
  let bytes := bytes_of [0x61; 0; 1; 0; 20; 2; 253; 4; 0x86; 92; 4; 0x86; 1; 7; 2; 0] in
  ∃ st, reaches bytes 16 (mkState (Off 0) ∅ []) st
        ∧ offset st = Off 16
        ∧ tableInvariant (definitions st) ∧ (base.size (definitions st) ≤ 16)%nat.
Proof.
  intros bytes.
  assert (Hreach : ∃ st, reaches bytes 16 (mkState (Off 0) ∅ []) st ∧ offset st = Off 16).
  { eexists. split.
    - eapply (reaches_next bytes 16 _ 0); [reflexivity | lia | vm_compute; reflexivity |].
      apply reaches_here.
    - reflexivity. }
  destruct Hreach as (st & Hreach & Ho). exists st. split; [exact Hreach|].
  split; [exact Ho|]. exact (definition_table_bounded bytes 16 0 st Hreach).
Defined.

(** ** Data records *)

Lemma readFields_cursor bytes fs le obj o obj' o' :
  readFields bytes fs le obj o = Ok (obj', o') → o' = cursorAfter fs o.
Proof.
  revert obj o. induction fs as [|f fs IH]; intros obj o; simpl.
  - intros H. by simplify_eq.
  - destruct (readFieldValue bytes f le o) as [[v o1]|e] eqn:Hv; simpl; [|done].
    apply readFieldValue_cursor in Hv as ->. apply IH.
Qed.

Lemma cursorAfter_declared fs n :
  Forall (fun f => is_Some (size f)) fs → cursorAfter fs (Off n) = Off (n + fieldBytes fs).
Proof.
  unfold cursorAfter. intros Hall. revert n.
  induction Hall as [|f fs [b Hb] _ IH]; intros n; simpl.
  - f_equal. lia.
  - rewrite Hb. simpl. rewrite IH. f_equal. lia.
Qed.

Lemma skipDevFields_declared dfs n :
  Forall (fun df => is_Some (devSize df)) dfs →
  skipDevFields dfs (Off n) = Off (n + devFieldBytes dfs).
Proof.
  unfold skipDevFields. intros Hall. revert n.
  induction Hall as [|df dfs [b Hb] _ IH]; intros n; simpl.
  - f_equal. lia.
  - rewrite Hb. simpl. rewrite IH. f_equal. lia.
Qed.

Lemma fieldBytes_nonneg fs : 0 ≤ fieldBytes fs.
Proof.
  induction fs as [|f fs IH]; simpl; [lia|].
  destruct (size f) as [b|]; simpl; [pose proof (u8_range b)|]; lia.
Qed.

Lemma devFieldBytes_nonneg dfs : 0 ≤ devFieldBytes dfs.
Proof.
  induction dfs as [|f fs IH]; simpl; [lia|].
  destruct (devSize f) as [b|]; simpl; [pose proof (u8_range b)|]; lia.
Qed.

(** X6. The length of a data record. A data message that is decoded
    carries the global message number of its definition, and when every
    descriptor of the definition has a size the cursor has moved by
    exactly the declared sizes of the fields plus those of the developer
    fields, whatever the base types are; it never moves backwards. *)
Theorem data_record_length
    (bytes : list byte) (def : MesgDef) (n : Z) (msg : RawMessage) (o' : jsoff) :
  readDataMessage bytes def (Off n) = Ok (msg, o') →
  Forall (fun f => is_Some (size f)) (fields def) →
  Forall (fun df => is_Some (devSize df)) (devFields def) →
  _mesgNum msg = globalMesgNum def
  ∧ o' = Off (n + fieldBytes (fields def) + devFieldBytes (devFields def))
  ∧ 0 ≤ fieldBytes (fields def) + devFieldBytes (devFields def).
Proof.
  unfold readDataMessage. intros Hr Hf Hd.
  destruct (readFields _ _ _ _ _) as [[obj o1]|e] eqn:Hfs; simpl in Hr; [|done].
  simplify_eq. apply readFields_cursor in Hfs as ->.
  rewrite cursorAfter_declared by done. rewrite skipDevFields_declared by done.
  split; [done|]. split; [done|].
  pose proof (fieldBytes_nonneg (fields def)). pose proof (devFieldBytes_nonneg (devFields def)).
  lia.
Qed.

Lemma data_record_length_witness :
  let bytes := bytes_of [0; 1; 2; 3; 4; 5; 6; 7; 8; 9; 10; 11] in
  let def := mkMesgDef 20 [mkFieldDef (Some xfd) (Some x04) (Some x86);
                           mkFieldDef (Some x05) (Some x03) (Some x1f)]
                          [mkDevFieldDef (Some x00) (Some x02) (Some x00)] true in
  ∃ msg o', readDataMessage bytes def (Off 1) = Ok (msg, o')
            ∧ _mesgNum msg = 20 ∧ o' = Off 10.
Proof.
  intros bytes def.
  assert (Hrun : ∃ msg o', readDataMessage bytes def (Off 1) = Ok (msg, o')).
  { eexists _, _. vm_compute. reflexivity. }
  destruct Hrun as (msg & o' & Hr). exists msg, o'. split; [exact Hr|].
  destruct (data_record_length bytes def 1 msg o' Hr) as (Hm & Ho & _).
  - repeat constructor; simpl; eauto.
  - repeat constructor; simpl; eauto.
  - split; [exact Hm | exact Ho].
Defined.

Lemma readFields_app bytes fs1 fs2 le obj o :
  readFields bytes (fs1 ++ fs2) le obj o
  = match readFields bytes fs1 le obj o with
    | Ok (obj1, o1) => readFields bytes fs2 le obj1 o1
    | Throw e => Throw e
    end.
Proof.
  revert obj o. induction fs1 as [|f fs1 IH]; intros obj o; simpl; [done|].
  destruct (readFieldValue bytes f le o) as [[v o1]|e]; simpl; [|done]. apply IH.
Qed.

Lemma readFields_keep bytes fs le obj o obj' o' k :
  readFields bytes fs le obj o = Ok (obj', o') → k ∉ fieldKeys fs → obj' !! k = obj !! k.
Proof.
  revert obj o. induction fs as [|f fs IH]; intros obj o; simpl.
  - intros H _. by simplify_eq.
  - destruct (readFieldValue bytes f le o) as [[v o1]|e]; simpl; [|done].
    intros Hr Hk. apply not_elem_of_cons in Hk as [Hne Hk].
    rewrite (IH _ _ Hr Hk). by rewrite lookup_insert_ne.
Qed.

(** X7. The properties of a decoded message. A decoded data message has
    a property for a key exactly when some field descriptor of the
    definition has that number, and the value under the number of a
    descriptor that no later descriptor repeats is the value read for
    that descriptor at the cursor the earlier descriptors leave: of two
    descriptors with the same number the later one wins. *)
Theorem data_record_fields
    (bytes : list byte) (def : MesgDef) (o : jsoff) (msg : RawMessage) (o' : jsoff) :
  readDataMessage bytes def o = Ok (msg, o') →
  (∀ k, is_Some (props msg !! k) ↔ k ∈ fieldKeys (fields def))
  ∧ (∀ before f after,
       fields def = before ++ f :: after →
       num (fieldDefNum f) ∉ fieldKeys after →
       ∃ v, readFieldValue bytes f (littleEndian def) (cursorAfter before o)
              = Ok (v, cursorAfter (before ++ [f]) o)
            ∧ props msg !! num (fieldDefNum f) = Some v).
Proof.
  unfold readDataMessage. intros Hr.
  destruct (readFields _ _ _ _ _) as [[obj o1]|e] eqn:Hfs; simpl in Hr; [|done].
  simplify_eq. simpl. split.
  - intros k.
    assert (Hgen : ∀ fs obj0 o0 obj1 o1',
              readFields bytes fs (littleEndian def) obj0 o0 = Ok (obj1, o1') →
              is_Some (obj1 !! k) ↔ is_Some (obj0 !! k) ∨ k ∈ fieldKeys fs).
    { induction fs as [|f fs IH]; intros obj0 o0 obj1 o1'; simpl.
      - intros H. simplify_eq. split; [by left|]. intros [H|H]; [done|].
        by apply elem_of_nil in H.
      - destruct (readFieldValue bytes f _ o0) as [[v o2]|e]; simpl; [|done].
        intros Hr. rewrite (IH _ _ _ _ Hr), elem_of_cons.
        destruct (decide (k = num (fieldDefNum f))) as [->|Hne].
        + rewrite lookup_insert_eq. split; [intros _; right; by left | intros _; left; eauto].
        + rewrite lookup_insert_ne by done. split; intros [H|H]; auto.
          * destruct H as [H|H]; [done | auto].
    }
    rewrite (Hgen _ _ _ _ _ Hfs), lookup_empty. split; [|by right].
    intros [[x Hx]|H]; [done | done].
  - intros before f after Hsplit Hlast. rewrite Hsplit in Hfs.
    rewrite readFields_app in Hfs.
    destruct (readFields bytes before _ ∅ o) as [[obj0 o0]|e] eqn:Hb; [|done].
    simpl in Hfs.
    destruct (readFieldValue bytes f _ o0) as [[v o2]|e] eqn:Hv; simpl in Hfs; [|done].
    pose proof (readFields_cursor _ _ _ _ _ _ _ Hb) as ->.
    exists v. split.
    + rewrite Hv. f_equal. f_equal. apply readFieldValue_cursor in Hv as ->.
      unfold cursorAfter. by rewrite fold_left_app.
    + rewrite (readFields_keep _ _ _ _ _ _ _ _ Hfs Hlast). by rewrite lookup_insert_eq.
Qed.

Lemma data_record_fields_witness :
  let bytes := bytes_of [0; 1; 2; 3; 4; 5; 6; 7; 8; 9; 10; 11] in
  let f1 := mkFieldDef (Some x05) (Some x02) (Some x84) in
  let f2 := mkFieldDef (Some x05) (Some x01) (Some x02) in
  let def := mkMesgDef 20 [f1; f2] [] false in
  ∃ msg o', readDataMessage bytes def (Off 1) = Ok (msg, o')
            ∧ (∀ k, is_Some (props msg !! k) ↔ k ∈ [Some 5; Some 5])
            ∧ props msg !! Some 5 = Some (VNum 3).
Proof.
  intros bytes f1 f2 def.
  assert (Hrun : ∃ msg o', readDataMessage bytes def (Off 1) = Ok (msg, o')).
  { eexists _, _. vm_compute. reflexivity. }
  destruct Hrun as (msg & o' & Hr). exists msg, o'. split; [exact Hr|].
  destruct (data_record_fields bytes def (Off 1) msg o' Hr) as [Hdom Hlast].
  split; [exact Hdom|].
  destruct (Hlast [f1] f2 [] eq_refl) as (v & Hv & Hp).
  - simpl. apply not_elem_of_nil.
  - transitivity (Some v); [exact Hp|]. vm_compute in Hv. congruence.
Defined.

(** ** Text fields *)

Lemma u8_zero b : u8 b = 0 ↔ b = x00.
Proof. split; [by destruct b | by intros ->]. Qed.

Lemma fromCharCode_u8 b : fromCharCode (Some (u8 b)) = ascii_of_byte b.
Proof. by destruct b. Qed.

Lemma string_of_list_byte_cons b bs :
  string_of_list_byte (b :: bs) = String (ascii_of_byte b) (string_of_list_byte bs).
Proof. done. Qed.

Lemma readString_in_range bytes k n i :
  0 ≤ k → 0 ≤ i → k + i + Z.of_nat n ≤ Z.of_nat (length bytes) →
  readString bytes (Off k) n i
  = string_of_list_byte (untilNul (take n (drop (Z.to_nat (k + i)) bytes))).
Proof.
  intros Hk. revert i. induction n as [|n IH]; intros i Hi Hlen; [done|].
  destruct (rawAt_in_range bytes (k + i)) as [b Hb]; [lia|].
  assert (Hdrop : drop (Z.to_nat (k + i)) bytes = b :: drop (Z.to_nat (k + (i + 1))) bytes).
  { unfold rawAt in Hb. rewrite (proj2 (Z.ltb_ge _ _)) in Hb by lia.
    rewrite (drop_S _ _ _ Hb). f_equal. f_equal. lia. }
  rewrite Hdrop. cbn [readString off_add elemAt take untilNul].
  unfold byteAt. rewrite Hb. cbn [fmap option_fmap option_map].
  destruct (Byte.eqb b x00) eqn:Hz.
  - apply Byte.byte_dec_bl in Hz. subst b. done.
  - assert (Hnz : u8 b ≠ 0).
    { intros H0. apply u8_zero in H0. subst b. done. }
    rewrite string_of_list_byte_cons, <- (IH (i + 1)) by lia.
    rewrite <- fromCharCode_u8.
    destruct (u8 b) as [|p|p]; done.
Qed.

Lemma untilNul_prefix bs : untilNul bs `prefix_of` bs.
Proof.
  induction bs as [|b bs IH]; simpl; [done|].
  destruct (Byte.eqb b x00); [apply prefix_nil | by apply prefix_cons].
Qed.

Lemma untilNul_no_nul bs : x00 ∉ untilNul bs.
Proof.
  induction bs as [|b bs IH]; simpl; [apply not_elem_of_nil|].
  destruct (Byte.eqb b x00) eqn:Hz; [apply not_elem_of_nil|].
  apply not_elem_of_cons. split; [|done]. intros <-. done.
Qed.

Lemma untilNul_stop bs :
  (length (untilNul bs) < length bs)%nat → bs !! length (untilNul bs) = Some x00.
Proof.
  induction bs as [|b bs IH]; simpl; [lia|].
  destruct (Byte.eqb b x00) eqn:Hz.
  - apply Byte.byte_dec_bl in Hz. by subst b.
  - simpl. intros H. apply IH. lia.
Qed.

(** X8. Text fields. A field of base type 7 whose declared bytes lie
    inside the buffer decodes to the text made of those bytes, one
    character per byte, up to the first NUL byte or to the declared size
    if there is none; the text holds no NUL, and the cursor moves by the
    declared size even when the text is shorter. *)
Theorem text_field
    (bytes : list byte) (field : FieldDef) (le : bool) (k : Z) (sz : byte) :
  baseTypeNumber field = 7 → size field = Some sz →
  0 ≤ k → k + u8 sz ≤ Z.of_nat (length bytes) →
  let declared := take (Z.to_nat (u8 sz)) (drop (Z.to_nat k) bytes) in
  ∃ text,
    readFieldValue bytes field le (Off k)
      = Ok (VStr (string_of_list_byte text), Off (k + u8 sz))
    ∧ text `prefix_of` declared
    ∧ (x00 ∉ text)
    ∧ ((length text < length declared)%nat → declared !! length text = Some x00)
    ∧ length declared = Z.to_nat (u8 sz).
Proof.
  intros Hbt Hsz Hk Hlen declared. exists (untilNul declared).
  pose proof (u8_range sz) as Hr.
  split; [|split; [apply untilNul_prefix|split; [apply untilNul_no_nul|split; [apply untilNul_stop|]]]].
  - unfold readFieldValue. fold (baseTypeNumber field). rewrite Hbt, Hsz.
    lazy beta iota zeta. cbn [mbind result_bind num fmap option_fmap option_map off_add].
    unfold loopCount. cbn [default].
    unfold id. rewrite readString_in_range by lia. by rewrite Z.add_0_r.
  - unfold declared. rewrite length_take, length_drop. lia.
Qed.

Lemma text_field_witness :
  let bytes := bytes_of [0; 72; 105; 0; 33; 9] in
  let field := mkFieldDef (Some x03) (Some x04) (Some x07) in
  ∃ text,
    readFieldValue bytes field true (Off 1) = Ok (VStr (string_of_list_byte text), Off 5)
    ∧ text `prefix_of` [x48; x69; x00; x21]
    ∧ (x00 ∉ text).
Proof.
  intros bytes field.
  destruct (text_field bytes field true 1 x04 eq_refl eq_refl) as (text & Hv & Hp & Hn & _).
  - lia.
  - vm_compute. discriminate.
  - exists text. split; [exact Hv|]. split; [exact Hp | exact Hn].
Defined.

(** ** Integer fields *)

Lemma intRange_cases bt r :
  0 ≤ bt < 32 → intRange bt = Some r →
  bt = 0 ∨ bt = 1 ∨ bt = 2 ∨ bt = 3 ∨ bt = 4 ∨ bt = 5 ∨ bt = 6
  ∨ bt = 10 ∨ bt = 11 ∨ bt = 12 ∨ bt = 13.
Proof.
  intros Hr.
  assert (Hc : bt = 0 ∨ bt = 1 ∨ bt = 2 ∨ bt = 3 ∨ bt = 4 ∨ bt = 5 ∨ bt = 6
               ∨ bt = 10 ∨ bt = 11 ∨ bt = 12 ∨ bt = 13
               ∨ bt = 7 ∨ bt = 8 ∨ bt = 9 ∨ (14 ≤ bt < 32)) by lia.
  intros Hi.
  repeat (destruct Hc as [Hc|Hc]; [tauto|]).
  exfalso.
  assert (He : bt = 7 ∨ bt = 8 ∨ bt = 9 ∨ bt = 14 ∨ bt = 15 ∨ bt = 16 ∨ bt = 17 ∨ bt = 18
               ∨ bt = 19 ∨ bt = 20 ∨ bt = 21 ∨ bt = 22 ∨ bt = 23 ∨ bt = 24 ∨ bt = 25
               ∨ bt = 26 ∨ bt = 27 ∨ bt = 28 ∨ bt = 29 ∨ bt = 30 ∨ bt = 31) by lia.
  repeat (destruct He as [He|He]; [by subst bt|]). by subst bt.
Qed.

Lemma elemAt_range bytes o v : elemAt bytes o = Some v → 0 ≤ v ≤ 255.
Proof.
  destruct o as [n|]; simpl; [|done]. unfold byteAt.
  destruct (rawAt bytes n) as [b|]; simpl; [|done].
  intros H. simplify_eq. pose proof (u8_range b). lia.
Qed.

Lemma orNull_range s lo hi v :
  lo ≤ v ≤ hi →
  orNull s v = VNull ∨ ∃ z, orNull s v = VNum (num_of_Z z) ∧ lo ≤ z ≤ hi ∧ z ≠ s.
Proof.
  intros Hr. unfold orNull. destruct (v =? s) eqn:He; [by left|].
  apply Z.eqb_neq in He. right. by exists v.
Qed.

(** X9. Integer fields. For the integer base types of the table a
    decoded value is "no value", or the number of an integer that lies
    in the range of the representation and is not the sentinel; only the
    one-byte unsigned types, which read the array element without a
    range check, can decode to [undefined], and only past the end of the
    buffer. *)
Theorem integer_field_range
    (bytes : list byte) (field : FieldDef) (le : bool) (o o' : jsoff) (v : jsval)
    (lo hi sentinel : Z) :
  intRange (baseTypeNumber field) = Some (lo, hi, sentinel) →
  readFieldValue bytes field le o = Ok (v, o') →
  v = VNull
  ∨ (v = VUndefined ∧ hi = 0xFF ∧ lo = 0 ∧ elemAt bytes o = None)
  ∨ ∃ z, v = VNum (num_of_Z z) ∧ lo ≤ z ≤ hi ∧ z ≠ sentinel.
Proof.
  intros Hi. pose proof (intRange_cases _ _ (baseTypeNumber_range field) Hi) as Hc.
  unfold readFieldValue. fold (baseTypeNumber field).
  assert (Hfin : ∀ x, lo ≤ x ≤ hi →
            orNull sentinel x = v →
            v = VNull
            ∨ (v = VUndefined ∧ hi = 0xFF ∧ lo = 0 ∧ elemAt bytes o = None)
            ∨ ∃ z, v = VNum (num_of_Z z) ∧ lo ≤ z ≤ hi ∧ z ≠ sentinel).
  { intros x Hx <-. destruct (orNull_range sentinel lo hi x Hx) as [->|(z & -> & Hz)]; eauto. }
  repeat match type of Hc with _ ∨ _ => destruct Hc as [Hc|Hc] end;
    rewrite Hc in Hi |- *; simpl in Hi; simplify_eq; lazy beta iota zeta;
    try (destruct (elemAt bytes o) as [x|] eqn:Hx; simpl; intros H; simplify_eq;
         [apply (Hfin x); [by apply elemAt_range in Hx | done] | right; left; done]).
  - unfold getInt8. destruct (getInt 1 bytes o false) as [x|] eqn:Hx; simpl; [|done].
    intros H. simplify_eq. apply (Hfin x); [|done].
    apply getInt_range in Hx; [|lia]. simpl in Hx. lia.
  - unfold getInt16. destruct (getInt 2 bytes o le) as [x|] eqn:Hx; simpl; [|done].
    intros H. simplify_eq. apply (Hfin x); [|done].
    apply getInt_range in Hx; [|lia]. simpl in Hx. lia.
  - unfold getUint16. destruct (getUint 2 bytes o le) as [x|] eqn:Hx; simpl; [|done].
    intros H. simplify_eq. apply (Hfin x); [|done].
    apply getUint_range in Hx. simpl in Hx. lia.
  - unfold getInt32. destruct (getInt 4 bytes o le) as [x|] eqn:Hx; simpl; [|done].
    intros H. simplify_eq. apply (Hfin x); [|done].
    apply getInt_range in Hx; [|lia]. simpl in Hx. lia.
  - unfold getUint32. destruct (getUint 4 bytes o le) as [x|] eqn:Hx; simpl; [|done].
    intros H. simplify_eq. apply (Hfin x); [|done].
    apply getUint_range in Hx. simpl in Hx. lia.
  - unfold getUint16. destruct (getUint 2 bytes o le) as [x|] eqn:Hx; simpl; [|done].
    intros H. simplify_eq. apply (Hfin x); [|done].
    apply getUint_range in Hx. simpl in Hx. lia.
  - unfold getUint32. destruct (getUint 4 bytes o le) as [x|] eqn:Hx; simpl; [|done].
    intros H. simplify_eq. apply (Hfin x); [|done].
    apply getUint_range in Hx. simpl in Hx. lia.
Qed.

Lemma integer_field_range_witness :
  let bytes := bytes_of [0; 0xFE; 0xFF; 9] in
  let field := mkFieldDef (Some x05) (Some x02) (Some x83) in
  readFieldValue bytes field true (Off 1) = Ok (VNum (num_of_Z (-2)), Off 3)
  ∧ (VNum (num_of_Z (-2)) = VNull
     ∨ (VNum (num_of_Z (-2)) = VUndefined ∧ 0x7FFF = 0xFF ∧ -0x8000 = 0
        ∧ elemAt bytes (Off 1) = None)
     ∨ ∃ z, VNum (num_of_Z (-2)) = VNum (num_of_Z z) ∧ -0x8000 ≤ z ≤ 0x7FFF ∧ z ≠ 0x7FFF).
Proof.
  intros bytes field.
  assert (Hr : readFieldValue bytes field true (Off 1) = Ok (VNum (num_of_Z (-2)), Off 3))
    by (vm_compute; reflexivity).
  split; [exact Hr|].
  exact (integer_field_range bytes field true (Off 1) (Off 3) _ _ _ _ eq_refl Hr).
Defined.

(** ** Messages already decoded *)

(** X10. Decoded messages are kept. When [parseFIT] returns a list, the
    messages held in any state that its loop passes through are an
    initial segment of that list: a message, once decoded, is neither
    dropped nor reordered by the rest of the stream (only an exception
    discards them, all at once). *)
Theorem decoded_messages_kept
    (buffer : list byte) (h : byte) (dataSize : Z) (st : State) (msgs : list RawMessage) :
  rawAt buffer 0 = Some h → getUint32 buffer (Off 4) true = Ok dataSize →
  hasFitTag buffer →
  reaches buffer (u8 h + dataSize) (initState (u8 h)) st →
  parseFIT buffer = Some (Ok msgs) →
  messages st `prefix_of` msgs.
Proof.
  intros Hh Hd Htag Hreach Hp.
  rewrite (parseFIT_valid _ _ _ Hh Hd Htag), (run_reaches _ _ _ _ Hreach) in Hp.
  apply scan_extends in Hp as (more & -> & _). by exists more.
Qed.

(** ** More on the backfill pass *)

Lemma backfill_sameClock l k : sameClock (backfill l !! k) (l !! k).
Proof.
  destruct (l !! k) as [s|] eqn:Hs.
  - destruct (backfill_keeps l k s Hs) as (s' & -> & He & Hd & _).
    split; simpl; by f_equal.
  - rewrite (lookup_ge_None_2 (backfill l) k); [done|].
    rewrite backfill_length. by apply lookup_ge_None.
Qed.

Lemma fillWith_idem p s : fillWith p (fillWith p s) = fillWith p s.
Proof.
  assert (Hshape : fillWith p s = s ∨ ∃ r, fillWith p s = setAscentRate s r).
  { unfold fillWith. destruct p as [sp|]; [|by left].
    destruct (ascentRate s); [by left|].
    destruct (depth s); [|by left]. destruct (depth sp); [|by left].
    destruct (PrimFloat.ltb _ _); [right; eauto | by left]. }
  destruct Hshape as [H|[r H]]; rewrite H; [done|].
  unfold fillWith. by destruct p.
Qed.

(** X11. Running the backfill pass a second time changes nothing. *)
Theorem backfill_idempotent (samples : list Sample) :
  backfill (backfill samples) = backfill samples.
Proof.
  apply list_eq. intros [|k].
  - by rewrite !backfill_lookup_0.
  - rewrite (backfill_lookup_S (backfill samples)), backfill_lookup_S.
    destruct (samples !! S k) as [s|]; [|done]. simpl. f_equal.
    rewrite (fillWith_sameClock _ _ _ (backfill_sameClock samples k)).
    apply fillWith_idem.
Qed.

(** X12. After the pass no rate is missing that could be derived: a
    sample that has a depth, whose predecessor has a depth and an
    earlier elapsed time, has an ascent rate. *)
Theorem backfill_complete (samples : list Sample) (i : nat) (p s : Sample) :
  backfill samples !! i = Some p → backfill samples !! S i = Some s →
  is_Some (depth s) → is_Some (depth p) →
  PrimFloat.ltb 0 (PrimFloat.sub (elapsed s) (elapsed p)) = true →
  is_Some (ascentRate s).
Proof.
  intros Hp Hs [d Hd] [dp Hdp] Hlt.
  rewrite backfill_lookup_S in Hs.
  destruct (samples !! S i) as [s0|] eqn:Hs0; [|done]. simpl in Hs. injection Hs as <-.
  destruct (backfill_sameClock samples i) as [Hcd Hce]. rewrite Hp in Hcd, Hce.
  destruct (samples !! i) as [p0|] eqn:Hp0; [|done]. simpl in Hcd, Hce.
  injection Hcd as Hcd. injection Hce as Hce.
  destruct (fillWith_clock (Some p0) s0) as [Hfd Hfe]. rewrite Hfd in Hd. rewrite Hfe, Hce in Hlt.
  rewrite Hcd in Hdp.
  unfold fillWith. destruct (ascentRate s0) eqn:Ha; [by rewrite Ha|].
  rewrite Hd, Hdp, Hlt. simpl. eauto.
Qed.

Lemma backfill_complete_witness :
  let l := [sample 0 (Some 10%float) None; sample 2 (Some 8%float) None] in
  backfill l !! 0%nat = Some (sample 0 (Some 10%float) None)
  ∧ backfill l !! 1%nat = Some (sample 2 (Some 8%float) (Some 1%float))
  ∧ is_Some (Some 1%float).
Proof.
  intros l. split; [reflexivity|]. split; [reflexivity|].
  exact (backfill_complete l 0 _ _ eq_refl eq_refl (mk_is_Some _ _ eq_refl)
           (mk_is_Some _ _ eq_refl) eq_refl).
Defined.

(** ** Messages that extraction does not look at *)

Lemma firstOrEmpty_app l1 l2 : l1 ≠ [] → firstOrEmpty (l1 ++ l2) = firstOrEmpty l1.
Proof. by destruct l1. Qed.

Lemma firstOrEmpty_filter_skip (P : RawMessage → Prop) `{!∀ m, Decision (P m)} l1 m l2 :
  (P m → ∃ m', m' ∈ l1 ∧ P m') →
  firstOrEmpty (filter P (l1 ++ m :: l2)) = firstOrEmpty (filter P (l1 ++ l2)).
Proof.
  intros Hskip. rewrite !filter_app. destruct (decide (P m)) as [Hm|Hm].
  - destruct (Hskip Hm) as (m' & Hin & Hm').
    assert (Hne : filter P l1 ≠ []).
    { intros Hnil. assert (Hf : m' ∈ filter P l1) by (by apply list_elem_of_filter).
      rewrite Hnil in Hf. by apply elem_of_nil in Hf. }
    by rewrite !firstOrEmpty_app.
  - by rewrite filter_cons_False.
Qed.

Section Ignored.

Context (StringToNumber : string → float).

(** X13. Extraction looks at the records, the first session and the
    first dive summary only: taking away a message that is not a
    record, and is neither the first session nor the first summary,
    leaves the result (a dive or the error) as it is. *)
Theorem extractDive_ignores (l1 l2 : list RawMessage) (m : RawMessage) :
  ¬ isRecord m →
  (isSession m → ∃ m', m' ∈ l1 ∧ isSession m') →
  (isDiveSummary m → ∃ m', m' ∈ l1 ∧ isDiveSummary m') →
  extractDive StringToNumber (l1 ++ m :: l2) = extractDive StringToNumber (l1 ++ l2).
Proof.
  intros Hr Hs Hd. unfold extractDive. fold isRecord isSession isDiveSummary.
  rewrite (firstOrEmpty_filter_skip isSession l1 m l2 Hs).
  rewrite (firstOrEmpty_filter_skip isDiveSummary l1 m l2 Hd).
  assert (Hrec : filter isRecord (l1 ++ m :: l2) = filter isRecord (l1 ++ l2)).
  { rewrite !filter_app. by rewrite filter_cons_False. }
  by rewrite Hrec.
Qed.

End Ignored.

(** ** Depth and temperature statistics of a dive *)

Lemma num_truthy_not_nan d : num_truthy d = true → PrimFloat.is_nan d = false.
Proof.
  unfold num_truthy. rewrite negb_true_iff, orb_false_iff. by intros [_ ?].
Qed.

Lemma depthOrZero_not_nan s : PrimFloat.is_nan (depthOrZero s) = false.
Proof.
  unfold depthOrZero. destruct (depth s) as [d|]; [|done].
  destruct (num_truthy d) eqn:Ht; [by apply num_truthy_not_nan | done].
Qed.

Lemma existsb_nan_fmap {A} (f : A → float) (l : list A) :
  (∀ a, a ∈ l → PrimFloat.is_nan (f a) = false) →
  existsb PrimFloat.is_nan (f <$> l) = false.
Proof.
  induction l as [|a l IH]; intros H; [done|].
  rewrite fmap_cons. apply existsb_nan_cons. split.
  - apply H. by apply elem_of_cons; left.
  - apply IH. intros b Hb. apply H. by apply elem_of_cons; right.
Qed.

Section Statistics.

Context (StringToNumber : string → float).

(** X14. When the summary gives no usable maximum depth, the maximum
    depth of the dive is the depth of one of its samples (a depth that
    is absent, 0 or NaN counting as 0), and no sample is deeper. *)
Theorem maxDepth_greatest (messages : list RawMessage) (dive : Dive) :
  extractDive StringToNumber messages = Ok dive →
  truthy (prop (firstOrEmpty (filter isDiveSummary messages)) DS_MAX_DEPTH) = false →
  (∃ s, s ∈ samples dive ∧ maxDepth dive = depthOrZero s)
  ∧ ∀ s, s ∈ samples dive → fle (depthOrZero s) (maxDepth dive).
Proof.
  intros Hd Hm.
  destruct (filter isRecord messages) as [|first rest] eqn:Hrec.
  { apply (extractDive_no_records StringToNumber) in Hrec. congruence. }
  destruct (extractDive_records StringToNumber messages first rest Hrec)
    as (lastSample & Hlast & He).
  rewrite He in Hd. injection Hd as <-. cbn [maxDepth samples]. rewrite Hm.
  set (l := backfill _) in *.
  assert (Hne : depthOrZero <$> l ≠ []).
  { intros H. apply fmap_nil_inv in H. by rewrite H in Hlast. }
  destruct (mathMax_greatest (depthOrZero <$> l)) as [Hin Hup]; [|done|].
  { apply existsb_nan_fmap. intros s _. apply depthOrZero_not_nan. }
  split.
  - apply list_elem_of_fmap in Hin as (s & Hs & Hsl). eauto.
  - intros s Hs. apply Hup. apply list_elem_of_fmap. eauto.
Qed.

(** The temperatures that enter the statistics: those of the samples
    that carry one. *)
Lemma temps_elem (l : list Sample) (t : jsval) :
  t ∈ List.filter (fun t => negb (nullish t)) (temperature <$> l)
  ↔ ∃ s, s ∈ l ∧ temperature s = t ∧ nullish t = false.
Proof.
  rewrite list_elem_of_In, filter_In, <- list_elem_of_In, list_elem_of_fmap.
  rewrite negb_true_iff. split.
  - intros [(s & -> & Hs) Hn]. eauto.
  - intros (s & Hs & <- & Hn). eauto.
Qed.

(** X15. Temperature range. When no sample carries a temperature, the
    dive has neither a minimum nor a maximum temperature. Otherwise it
    has both; provided every temperature carried converts to a number
    (not NaN), each of the two is the temperature of some sample, and
    every sample's temperature lies between them. *)
Theorem temperature_range (messages : list RawMessage) (dive : Dive) :
  extractDive StringToNumber messages = Ok dive →
  let carried (s : Sample) := nullish (temperature s) = false in
  let value (s : Sample) := toNumber StringToNumber (temperature s) in
  ((∀ s, s ∈ samples dive → ¬ carried s) → minTemp dive = None ∧ maxTemp dive = None)
  ∧ ((∃ s, s ∈ samples dive ∧ carried s) →
       ∃ lo hi,
         minTemp dive = Some lo ∧ maxTemp dive = Some hi
         ∧ ((∀ s, s ∈ samples dive → carried s → PrimFloat.is_nan (value s) = false) →
              (∃ s, s ∈ samples dive ∧ carried s ∧ lo = value s)
              ∧ (∃ s, s ∈ samples dive ∧ carried s ∧ hi = value s)
              ∧ ∀ s, s ∈ samples dive → carried s → fle lo (value s) ∧ fle (value s) hi)).
Proof.
  intros Hd carried value.
  destruct (filter isRecord messages) as [|first rest] eqn:Hrec.
  { apply (extractDive_no_records StringToNumber) in Hrec. congruence. }
  destruct (extractDive_records StringToNumber messages first rest Hrec)
    as (lastSample & Hlast & He).
  rewrite He in Hd. injection Hd as <-. cbn [minTemp maxTemp samples].
  set (l := backfill _) in *.
  set (temps := List.filter _ (temperature <$> l)).
  split.
  - intros Hnone. assert (Ht : temps = []).
    { destruct temps as [|t ts] eqn:Htemps; [done|].
      assert (Hin : t ∈ temps) by (rewrite Htemps; by apply elem_of_cons; left).
      apply temps_elem in Hin as (s & Hs & Heq & Hn). destruct (Hnone s Hs).
      unfold carried. by rewrite Heq. }
    by rewrite Ht.
  - intros (s0 & Hs0 & Hc0).
    assert (Hin0 : temperature s0 ∈ temps) by (apply temps_elem; eauto).
    assert (Hlen : (0 <? length temps)%nat = true).
    { apply Nat.ltb_lt. destruct temps; [by apply elem_of_nil in Hin0 | simpl; lia]. }
    rewrite Hlen. eexists _, _. split; [done|]. split; [done|].
    intros Hnum.
    assert (Hnan : existsb PrimFloat.is_nan (toNumber StringToNumber <$> temps) = false).
    { apply existsb_nan_fmap. intros t Ht. apply temps_elem in Ht as (s & Hs & <- & Hn).
      by apply Hnum. }
    assert (Hne : toNumber StringToNumber <$> temps ≠ []).
    { intros H. apply fmap_nil_inv in H. rewrite H in Hin0. by apply elem_of_nil in Hin0. }
    destruct (mathMin_least _ Hnan Hne) as [Hmin Hlo].
    destruct (mathMax_greatest _ Hnan Hne) as [Hmax Hhi].
    split; [|split].
    + apply list_elem_of_fmap in Hmin as (t & Ht & Hin).
      apply temps_elem in Hin as (s & Hs & <- & Hn). eauto.
    + apply list_elem_of_fmap in Hmax as (t & Ht & Hin).
      apply temps_elem in Hin as (s & Hs & <- & Hn). eauto.
    + intros s Hs Hc.
      assert (Hin : value s ∈ toNumber StringToNumber <$> temps).
      { apply list_elem_of_fmap. exists (temperature s). split; [done|].
        apply temps_elem. eauto. }
      split; [by apply Hlo | by apply Hhi].
Qed.

End Statistics.

(** ** Chart colours *)

Lemma abs_opp x : PrimFloat.abs (PrimFloat.opp x) = PrimFloat.abs x.
Proof.
  apply Prim2SF_inj. rewrite !FloatAxioms.abs_spec, FloatAxioms.opp_spec. by destruct (Prim2SF x).
Qed.

(** X16. The colour of a speed. The grey [#8899aa] is the colour of a
    missing speed and of nothing else, and the colour of a speed does
    not depend on its sign. *)
Theorem speedColor_grey_sign :
  (∀ mpm, speedColor mpm = "#8899aa"%string ↔ mpm = None)
  ∧ (∀ x, speedColor (Some (PrimFloat.opp x)) = speedColor (Some x)).
Proof.
  split.
  - intros [x|]; simpl; [|done]. split; [|done].
    destruct (PrimFloat.ltb 12 _); [done|].
    destruct (PrimFloat.ltb 9 _); [done|].
    by destruct (PrimFloat.ltb 6 _).
  - intros x. simpl. by rewrite abs_opp.
Qed.

(** X17. A faster speed never gets a calmer colour: with
    [|x| <= |y|], the alarm level of the colour of [y] is at least that
    of the colour of [x]. *)
Theorem speedColor_monotone (x y : float) :
  fle (PrimFloat.abs x) (PrimFloat.abs y) →
  (alarmLevel (speedColor (Some x)) ≤ alarmLevel (speedColor (Some y)))%nat.
Proof.
  intros Hle. simpl.
  destruct (PrimFloat.ltb 12 (PrimFloat.abs x)) eqn:H12.
  { by rewrite (flt_fle_trans _ _ _ H12 Hle). }
  destruct (PrimFloat.ltb 9 (PrimFloat.abs x)) eqn:H9.
  { rewrite (flt_fle_trans _ _ _ H9 Hle).
    destruct (PrimFloat.ltb 12 (PrimFloat.abs y)); vm_compute; lia. }
  destruct (PrimFloat.ltb 6 (PrimFloat.abs x)) eqn:H6.
  { rewrite (flt_fle_trans _ _ _ H6 Hle).
    destruct (PrimFloat.ltb 12 (PrimFloat.abs y)); [vm_compute; lia|].
    destruct (PrimFloat.ltb 9 (PrimFloat.abs y)); vm_compute; lia. }
  change (alarmLevel "#06d6a0") with 0%nat. lia.
Qed.

Lemma speedColor_monotone_witness :
  fle (PrimFloat.abs (-7)) (PrimFloat.abs 10)
  ∧ (alarmLevel (speedColor (Some (-7)%float)) ≤ alarmLevel (speedColor (Some 10%float)))%nat.
Proof.
  split; [reflexivity|]. apply speedColor_monotone. reflexivity.
Defined.

(** X18. The depth line and the speed bars agree: the colour of the
    line segment that starts at local index [i] of the zoom window is
    the colour of the bar of the sample at index [zoomStart + i], and
    grey when there is no such sample. *)
Theorem segment_colour_is_bar_colour (samples : list Sample) (zoomStart i : Z) :
  segmentBorderColor zoomStart (allAscentRates samples) i =
    default "#8899aa"%string (elemZ (allAscentColors samples) (zoomStart + i)).
Proof.
  unfold segmentBorderColor, elemZ, allAscentColors, allAscentMpm.
  destruct (zoomStart + i <? 0); [done|].
  rewrite !list_lookup_fmap.
  by destruct (allAscentRates samples !! Z.to_nat (zoomStart + i)) as [[r|]|].
Qed.

(** ** Worked inputs for the properties above *)

Lemma decoded_messages_kept_witness :
  ∃ st msgs,
    reaches scenarioA 44 (initState 14) st
    ∧ parseFIT scenarioA = Some (Ok msgs)
    ∧ length (messages st) = 1%nat
    ∧ messages st `prefix_of` msgs.
Proof.
  assert (Hreach : ∃ st, reaches scenarioA 44 (initState 14) st
                         ∧ length (messages st) = 1%nat).
  { eexists. split.
    - eapply (reaches_next scenarioA 44 _ 14); [reflexivity | lia | vm_compute; reflexivity |].
      eapply (reaches_next scenarioA 44 _ 26); [reflexivity | lia | vm_compute; reflexivity |].
      apply reaches_here.
    - reflexivity. }
  destruct Hreach as (st & Hreach & Hlen).
  assert (Hparse : ∃ msgs, parseFIT scenarioA = Some (Ok msgs)).
  { eexists. vm_compute. reflexivity. }
  destruct Hparse as (msgs & Hparse).
  exists st, msgs. split; [exact Hreach|]. split; [exact Hparse|]. split; [exact Hlen|].
  apply (decoded_messages_kept scenarioA x0e 30 st msgs); try reflexivity.
  - repeat split.
  - exact Hreach.
  - exact Hparse.
Defined.

Lemma maxDepth_greatest_witness :
  ∃ dive,
    extractDive noText recordsA = Ok dive
    ∧ (∃ s, s ∈ samples dive ∧ maxDepth dive = depthOrZero s)
    ∧ ∀ s, s ∈ samples dive → fle (depthOrZero s) (maxDepth dive).
Proof.
  assert (Hd : ∃ dive, extractDive noText recordsA = Ok dive).
  { eexists. vm_compute. reflexivity. }
  destruct Hd as (dive & Hd). exists dive. split; [exact Hd|].
  apply (maxDepth_greatest noText recordsA dive Hd). vm_compute. reflexivity.
Defined.

Lemma temperature_range_witness :
  ∃ dive,
    extractDive noText [recordB1; recordB2] = Ok dive
    ∧ let carried (s : Sample) := nullish (temperature s) = false in
      let value (s : Sample) := toNumber noText (temperature s) in
      ((∀ s, s ∈ samples dive → ¬ carried s) → minTemp dive = None ∧ maxTemp dive = None)
      ∧ ((∃ s, s ∈ samples dive ∧ carried s) →
           ∃ lo hi,
             minTemp dive = Some lo ∧ maxTemp dive = Some hi
             ∧ ((∀ s, s ∈ samples dive → carried s → PrimFloat.is_nan (value s) = false) →
                  (∃ s, s ∈ samples dive ∧ carried s ∧ lo = value s)
                  ∧ (∃ s, s ∈ samples dive ∧ carried s ∧ hi = value s)
                  ∧ ∀ s, s ∈ samples dive → carried s → fle lo (value s) ∧ fle (value s) hi)).
Proof.
  assert (Hd : ∃ dive, extractDive noText [recordB1; recordB2] = Ok dive).
  { eexists. vm_compute. reflexivity. }
  destruct Hd as (dive & Hd). exists dive. split; [exact Hd|].
  exact (temperature_range noText [recordB1; recordB2] dive Hd).
Defined.

Lemma extractDive_ignores_witness :
  let event := message 21 [(253, VNum 1000)] in
  ¬ isRecord event
  ∧ extractDive noText ([sessionC] ++ event :: recordsA)
    = extractDive noText ([sessionC] ++ recordsA)
  ∧ extractDive noText ([sessionC] ++ sessionZero :: recordsA)
    = extractDive noText ([sessionC] ++ recordsA).
Proof.
  intros event.
  assert (He : ¬ isRecord event) by (vm_compute; discriminate).
  split; [exact He|]. split.
  - apply extractDive_ignores; [exact He | |]; vm_compute; discriminate.
  - apply extractDive_ignores.
    + vm_compute. discriminate.
    + intros _. exists sessionC. split; [by apply elem_of_cons; left | reflexivity].
    + vm_compute. discriminate.
Defined.
